(** * Artifact-AI: similarity engine, entity normalizer, graph builder

    A shallow embedding of the computational core of the Artifact-AI
    front end (TypeScript/React) together with the properties stated
    about it in the design specification.

    Conventions of the embedding.
    - A JavaScript [string] is a Rocq [string]; the embedding covers
      strings whose code units are ASCII (all bundled data and every
      string the normalizer emits are of that kind).
    - A JavaScript [number] is the type [number] below: a finite value
      carried as a rational, or one of the three non-finite values.  A
      finite number is carried as the rational it is written as or
      computed from, before rounding: the literal [0.2] is 1/5 and the
      quotient of two set sizes is the exact quotient.  Rounding to the
      nearest double is monotone and leaves 0, 1/4 and 1 as they are,
      so the bounds, the equalities and the comparisons below are those
      of the rounded values as well.
    - A JavaScript [Set] is an insertion-ordered list without duplicates
      (module [JSSet]); its abstraction to stdpp's [gset] is used to
      reason about sizes. *)

From Stdlib Require Import ZArith QArith Lia Ascii String.
From stdpp Require Import base decidable list sorting gmap strings.

Local Open Scope string_scope.

(* ================================================================== *)
(** ** JavaScript numbers *)
(* ================================================================== *)

Inductive number : Type :=
  | Fin (q : Q)
  | PosInf
  | NegInf
  | NaN.

(** [n / d] for two collection sizes (non-negative integers), with the
    IEEE results for a zero divisor. *)
Definition size_div (n d : nat) : number :=
  match d with
  | O => match n with O => NaN | S _ => PosInf end
  | S _ => Fin (Z.of_nat n # Pos.of_nat d)
  end.

Definition Qlt_bool (x y : Q) : bool :=
  (Qnum x * QDen y <? Qnum y * QDen x)%Z.

(** [a > b] on numbers: any comparison with [NaN] is false. *)
Definition num_gt (a b : number) : bool :=
  match a, b with
  | NaN, _ | _, NaN => false
  | PosInf, PosInf => false
  | PosInf, _ => true
  | _, PosInf => false
  | NegInf, _ => false
  | Fin _, NegInf => true
  | Fin x, Fin y => Qlt_bool y x
  end.

(** [a === b] on numbers: value equality of finite numbers, never true
    of [NaN]. *)
Definition num_eq (a b : number) : bool :=
  match a, b with
  | Fin x, Fin y => Qeq_bool x y
  | PosInf, PosInf | NegInf, NegInf => true
  | _, _ => false
  end.

(* ================================================================== *)
(** ** JavaScript strings (ASCII) *)
(* ================================================================== *)

Module JSString.

Definition is_upper (c : ascii) : bool :=
  let n := nat_of_ascii c in (65 <=? n)%nat && (n <=? 90)%nat.
Definition is_lower (c : ascii) : bool :=
  let n := nat_of_ascii c in (97 <=? n)%nat && (n <=? 122)%nat.
Definition is_digit (c : ascii) : bool :=
  let n := nat_of_ascii c in (48 <=? n)%nat && (n <=? 57)%nat.

(** The character class [[a-z0-9]]. *)
Definition is_lower_alnum (c : ascii) : bool := is_lower c || is_digit c.

(** White space removed by [trim] (ASCII part). *)
Definition is_white (c : ascii) : bool :=
  let n := nat_of_ascii c in
  ((9 <=? n)%nat && (n <=? 13)%nat) || (n =? 32)%nat.

Definition lower_char (c : ascii) : ascii :=
  if is_upper c then ascii_of_nat (nat_of_ascii c + 32) else c.

(** [s.toLowerCase()] *)
Fixpoint toLowerCase (s : string) : string :=
  match s with
  | EmptyString => EmptyString
  | String c s' => String (lower_char c) (toLowerCase s')
  end.

(** [s.replace(/[^a-z0-9]/g, '')] *)
Fixpoint strip_non_alnum (s : string) : string :=
  match s with
  | EmptyString => EmptyString
  | String c s' =>
      if is_lower_alnum c then String c (strip_non_alnum s')
      else strip_non_alnum s'
  end.

(** [s.replace(/[^a-z0-9]+/g, '-')]: every maximal run of characters
    outside [[a-z0-9]] becomes one dash.  [in_run] tells whether the
    previous character already belonged to such a run. *)
Fixpoint collapse_runs (in_run : bool) (s : string) : string :=
  match s with
  | EmptyString => EmptyString
  | String c s' =>
      if is_lower_alnum c then String c (collapse_runs false s')
      else if in_run then collapse_runs true s'
      else String "-" (collapse_runs true s')
  end.

Fixpoint trimStart (s : string) : string :=
  match s with
  | EmptyString => EmptyString
  | String c s' => if is_white c then trimStart s' else s
  end.

Fixpoint trimEnd (s : string) : string :=
  match s with
  | EmptyString => EmptyString
  | String c s' =>
      match trimEnd s' with
      | EmptyString => if is_white c then EmptyString else String c EmptyString
      | t => String c t
      end
  end.

(** [s.trim()] *)
Definition trim (s : string) : string := trimEnd (trimStart s).

(** [text.includes(k)]: [k] occurs in [text] as a contiguous substring. *)
Fixpoint includes (text k : string) : bool :=
  if String.prefix k text then true
  else match text with
       | EmptyString => false
       | String _ text' => includes text' k
       end.

(** [s.charCodeAt(i)] for each [i], in order. *)
Definition charCodes (s : string) : list Z :=
  map (fun c => Z.of_nat (nat_of_ascii c)) (list_ascii_of_string s).

End JSString.

(* ================================================================== *)
(** ** JavaScript [Set]: insertion-ordered, duplicate-free *)
(* ================================================================== *)

Module JSSet.
Section JSSet.
Context {A : Type} `{EqDecision A}.

(** [s.has(x)] *)
Definition has (s : list A) (x : A) : bool := bool_decide (x ∈ s).

(** [s.add(x)] *)
Definition add (s : list A) (x : A) : list A :=
  if has s x then s else s ++ [x].

(** [new Set(iterable)] *)
Definition new_Set (l : list A) : list A := foldl add [] l.

(** [s.size] *)
Definition size (s : list A) : nat := length s.

End JSSet.
End JSSet.

(* ================================================================== *)
(** ** Data model (types.ts) *)
(* ================================================================== *)

Inductive Chronology : Type :=
  | MEGALITHIC
  | SANGAM
  | EARLY_HISTORIC
  | MEDIEVAL
  | UNKNOWN.

Global Instance Chronology_eq_dec : EqDecision Chronology.
Proof. solve_decision. Defined.

Inductive ArtifactCategory : Type :=
  | pottery | bead | tool | coin | ornament | other.

Record Artifact : Type := mkArtifact {
  art_name : string;
  material : string;
  category : ArtifactCategory;
  art_description : string
}.

Record Location : Type := mkLocation {
  lat : Q;
  lng : Q;
  district : string
}.

Record Site : Type := mkSite {
  id : string;
  name : string;
  location : Location;
  chronology : list Chronology;
  description : string;
  artifacts : list Artifact;
  structures : list string
}.

Record SimilarityResult : Type := mkSimilarityResult {
  sourceId : string;
  targetId : string;
  score : number;
  explanation : string;
  sharedEntities : list string
}.

(* ================================================================== *)
(** ** Similarity engine (App.tsx) *)
(* ================================================================== *)

(** [new Set(s.artifacts.map(art => art.material.toLowerCase()))] *)
Definition materialsOf (s : Site) : list string :=
  JSSet.new_Set (map (fun art => JSString.toLowerCase (material art)) (artifacts s)).

Definition intersectionOf (materialsA materialsB : list string) : list string :=
  JSSet.new_Set (filter (fun x => JSSet.has materialsB x = true) materialsA).

Definition unionOf (materialsA materialsB : list string) : list string :=
  JSSet.new_Set (materialsA ++ materialsB).

Definition calculateSim (a b : Site) : number :=
  let materialsA := materialsOf a in
  let materialsB := materialsOf b in
  let intersection := intersectionOf materialsA materialsB in
  let union := unionOf materialsA materialsB in
  if (JSSet.size union =? 0)%nat then Fin 0
  else size_div (JSSet.size intersection) (JSSet.size union).

(** One entry of [results]: the object pushed by the loop body. *)
Definition mkResult (a b : Site) : SimilarityResult :=
  {| sourceId := id a;
     targetId := id b;
     score := calculateSim a b;
     explanation := "";
     sharedEntities := [] |}.

(** The iteration space of the two nested loops
    [for (i = 0; i < n; i++) for (j = i + 1; j < n; j++)],
    in the order in which the body runs. *)
Definition pairIndices (n : nat) : list (nat * nat) :=
  flat_map (fun i => map (pair i) (seq (i + 1) (n - (i + 1)))) (seq 0 n).

(** The body of the similarity effect: [results] after both loops.
    Both indices are in range at every iteration, so the lookups never
    miss. *)
Definition computeSimilarity (sites : list Site) : list SimilarityResult :=
  flat_map
    (fun ij : nat * nat =>
       match sites !! ij.1, sites !! ij.2 with
       | Some a, Some b => [mkResult a b]
       | _, _ => []
       end)
    (pairIndices (length sites)).

(** Bundled records (mockData.ts). *)
Definition adichanallur : Site :=
  {| id := "adichanallur";
     name := "Adichanallur";
     location := mkLocation (86291 # 10000) (778765 # 10000) "Thoothukudi";
     chronology := [MEGALITHIC];
     description := "An extensive urn-burial site containing a vast number of skeletal remains and iron artifacts.";
     artifacts :=
       [ mkArtifact "Urns" "Terracotta" pottery "Large burial urns often containing skeletons.";
         mkArtifact "Swords" "Iron" tool "Double-edged iron swords found in burials.";
         mkArtifact "Gold Diadems" "Gold" ornament "Small gold leaf ornaments for the forehead." ];
     structures := ["Urn burial pits"; "Habitation mounds"] |}.

Definition keezhadi : Site :=
  {| id := "keezhadi";
     name := "Keezhadi";
     location := mkLocation (98631 # 10000) (781883 # 10000) "Sivaganga";
     chronology := [SANGAM; EARLY_HISTORIC];
     description := "A large urban settlement showing advanced civic planning and Tamil-Brahmi script.";
     artifacts :=
       [ mkArtifact "Tamil-Brahmi Potsherds" "Terracotta" pottery "Pottery inscribed with personal names.";
         mkArtifact "Glass Beads" "Glass" bead "Evidence of local manufacturing of luxury items.";
         mkArtifact "Game Pieces" "Terracotta" other "Dice and hopscotches indicating leisure activities." ];
     structures := ["Brick walls"; "Ring wells"; "Open drainage system"] |}.

Definition kodumanal : Site :=
  {| id := "kodumanal";
     name := "Kodumanal";
     location := mkLocation (111090 # 10000) (774580 # 10000) "Erode";
     chronology := [MEGALITHIC; SANGAM];
     description := "A major industrial and trade center specializing in semi-precious stone beads and iron smelting.";
     artifacts :=
       [ mkArtifact "Carnelian Beads" "Carnelian" bead "Etched beads indicating trade with Indus region.";
         mkArtifact "Iron Furnaces" "Iron" other "Remains of high-quality steel production.";
         mkArtifact "Punch-marked Coins" "Silver" coin "Early Indian coinage used in trade." ];
     structures := ["Stone circles"; "Iron smelting furnaces"; "Cist burials"] |}.

Definition arikamedu : Site :=
  {| id := "arikamedu";
     name := "Arikamedu";
     location := mkLocation (118942 # 10000) (798290 # 10000) "Puducherry";
     chronology := [EARLY_HISTORIC];
     description := "An Indo-Roman trading station on the Coromandel coast.";
     artifacts :=
       [ mkArtifact "Amphorae" "Terracotta" pottery "Mediterranean wine jars.";
         mkArtifact "Rouletted Ware" "Terracotta" pottery "Fine pottery with concentric machine-turned patterns.";
         mkArtifact "Arretine Ware" "Terracotta" pottery "Red glazed Italian pottery." ];
     structures := ["Warehouse remains"; "Brick tanks"; "Wharfs"] |}.

Definition porunthal : Site :=
  {| id := "porunthal";
     name := "Porunthal";
     location := mkLocation (105100 # 10000) (774800 # 10000) "Dindigul";
     chronology := [SANGAM];
     description := "Noted for the discovery of paddy in grave urns and rich bead deposits.";
     artifacts :=
       [ mkArtifact "Paddy Grains" "Organic" other "Carbonized rice found in burial urns.";
         mkArtifact "Banded Agate Beads" "Agate" bead "High quality imported semi-precious stones.";
         mkArtifact "Graffiti Pottery" "Terracotta" pottery "Post-firing markings on black and red ware." ];
     structures := ["Habitation mounds"; "Megalithic burials"] |}.

Definition TN_SITES : list Site :=
  [adichanallur; keezhadi; kodumanal; arikamedu; porunthal].

(* ================================================================== *)
(** ** Similarity matrix lookup (SimilarityMatrix.tsx) *)
(* ================================================================== *)

(** The predicate handed to [results.find]. *)
Definition matchesPair (id1 id2 : string) (r : SimilarityResult) : bool :=
  (String.eqb (sourceId r) id1 && String.eqb (targetId r) id2)
  || (String.eqb (sourceId r) id2 && String.eqb (targetId r) id1).

Definition getScore (results : list SimilarityResult) (id1 id2 : string) : number :=
  if String.eqb id1 id2 then Fin 1
  else match List.find (matchesPair id1 id2) results with
       | Some res => score res
       | None => Fin 0
       end.

(* ================================================================== *)
(** ** Graph builder (NetworkGraph.tsx) *)
(* ================================================================== *)

Record GraphLink : Type := mkGraphLink {
  source : string;
  target : string;
  link_score : number
}.

(** The literal [0.2], read as the rational 1/5.  Rounding is monotone,
    and a quotient of two set sizes other than 1/5 is too far from 1/5
    to round to the same double, so a quotient is above 1/5 exactly
    when its double is above the double of the literal; the quotient
    1/5 itself is not above the threshold, in the code as here. *)
Definition threshold : number := Fin (1 # 5).

Definition toLink (l : SimilarityResult) : GraphLink :=
  {| source := sourceId l; target := targetId l; link_score := score l |}.

(** The filter predicate of [linkData]. *)
Definition keepLink (nodeIds : list string) (l : SimilarityResult) : bool :=
  num_gt (score l) threshold
  && JSSet.has nodeIds (sourceId l)
  && JSSet.has nodeIds (targetId l).

Definition linkData (sites : list Site) (links : list SimilarityResult) : list GraphLink :=
  let nodes := sites in
  let nodeIds := JSSet.new_Set (map id nodes) in
  map toLink (List.filter (keepLink nodeIds) links).

(* ================================================================== *)
(** ** Entity normalizer (Dashboard.tsx) *)
(* ================================================================== *)

(** [raw.toLowerCase().replace(/[^a-z0-9]/g, '')] *)
Definition normalizeLabel (raw : string) : string :=
  JSString.strip_non_alnum (JSString.toLowerCase raw).

(** The ordered keyword groups, each with its canonical category. *)
Definition mappingGroups : list (Chronology * list string) :=
  [ (MEGALITHIC,
     ["megalithic"; "megalith"; "ironage"; "urnburial"; "megalithicage";
      "cist"; "dolmen"; "menhir"]);
    (SANGAM,
     ["sangam"; "sangamage"; "sangamperiod"; "earlysangam"; "earlytamil";
      "cheran"; "cholan"; "pandiyan"; "tamizh"]);
    (EARLY_HISTORIC,
     ["earlyhistoric"; "earlyhistorical"; "earlyhistoricperiod";
      "historicperiod"; "earlydynastic"; "indoroman"; "buddhist"; "jain";
      "maurya"; "satavahana"; "palaeography"]);
    (MEDIEVAL,
     ["medieval"; "medival"; "chola"; "pandya"; "pallava"; "middleages";
      "laterhistoric"; "vijayanagara"; "nayaka"; "islamic"; "sultanate"]) ].

(** [group.keywords.some(k => text.includes(k))] *)
Definition groupMatches (text : string) (group : Chronology * list string) : bool :=
  existsb (fun k => JSString.includes text k) group.2.

(** The [for ... of] loop returns at the first matching group. *)
Definition mapChronologyFuzzy (raw : string) : Chronology :=
  let text := normalizeLabel raw in
  match List.find (groupMatches text) mappingGroups with
  | Some group => group.1
  | None => UNKNOWN
  end.

(** [uniqueChronology] after the conditional filter. *)
Definition uniqueChronology (mappedChronology : list Chronology) : list Chronology :=
  let unique := JSSet.new_Set mappedChronology in
  if (1 <? length unique)%nat
  then filter (fun c => c ≠ UNKNOWN) unique
  else unique.

(** The [chronology] field of [newSite]; [extracted] is the optional
    [chronology] array of the extraction result ([|| []] when absent). *)
Definition siteChronology (extracted : option (list string)) : list Chronology :=
  let mappedChronology := map mapChronologyFuzzy (default [] extracted) in
  let unique := uniqueChronology mappedChronology in
  if (0 <? length unique)%nat then unique else [UNKNOWN].

(** *** Integer-to-string conversion *)

(** The digit characters [0-9a-z]. *)
Definition digitChar (d : Z) : ascii :=
  if (d <? 10)%Z then ascii_of_nat (48 + Z.to_nat d)
  else ascii_of_nat (87 + Z.to_nat d).

Fixpoint digits_go (fuel : nat) (radix n : Z) (acc : list ascii) : list ascii :=
  match fuel with
  | O => acc
  | S fuel' =>
      let acc' := digitChar (n mod radix) :: acc in
      if (n / radix =? 0)%Z then acc' else digits_go fuel' radix (n / radix) acc'
  end.

(** Digits of a non-negative integer, most significant first. *)
Definition digits (radix n : Z) : list ascii :=
  digits_go (S (Z.to_nat (Z.log2 n))) radix n [].

(** [n.toString(radix)] for an integer [n]. *)
Definition toStringRadix (radix n : Z) : string :=
  if (n <? 0)%Z
  then String "-" (string_of_list_ascii (digits radix (- n)))
  else string_of_list_ascii (digits radix n).

(** Value of a digit character, and of a digit string in base 36. *)
Definition digitVal (c : ascii) : Z :=
  let n := Z.of_nat (nat_of_ascii c) in
  if JSString.is_digit c then n - 48 else n - 87.

Definition parseDigits (radix : Z) (ds : list ascii) : Z :=
  fold_left (fun a c => a * radix + digitVal c)%Z ds 0%Z.

(** *** Identifier hash *)

(** [z | 0]: wrap to a signed 32-bit integer. *)
Definition to_int32 (z : Z) : Z :=
  ((z + 2 ^ 31) mod 2 ^ 32 - 2 ^ 31)%Z.

(** [x << k] on a 32-bit integer. *)
Definition shl32 (x k : Z) : Z := to_int32 (Z.shiftl x k).

(** One iteration of the loop of [stringToHash]. *)
Definition hashStep (hash char : Z) : Z :=
  to_int32 ((shl32 hash 5 - hash) + char).

(** The accumulator [hash] when the loop ends. *)
Definition hashCode (str : string) : Z :=
  fold_left hashStep (JSString.charCodes str) 0%Z.

Definition stringToHash (str : string) : string :=
  toStringRadix 36 (Z.abs (hashCode str)).

(** [s.trim().toLowerCase().replace(/[^a-z0-9]+/g, '-')] *)
Definition normalizeField (s : string) : string :=
  JSString.collapse_runs false (JSString.toLowerCase (JSString.trim s)).

(** [siteId], from the two normalized fields and the salt [now]
    (the value of [Date.now()], rendered in decimal by the template). *)
Definition siteId (normalizedName normalizedDistrict : string) (now : Z) : string :=
  let contentHash :=
    stringToHash (normalizedName ++ "-" ++ normalizedDistrict ++ "-" ++ toStringRadix 10 now) in
  normalizedName ++ "-" ++ normalizedDistrict ++ "-" ++ contentHash.

(* ================================================================== *)
(** ** Interaction controller (NetworkGraph.tsx) *)
(* ================================================================== *)

(** A simulation node: the site copy with the fields d3 adds to it.
    [fx]/[fy] are [None] when unset or [null]. *)
Record GraphNode : Type := mkGraphNode {
  node_id : string;
  x : Q;
  y : Q;
  vx : Q;
  vy : Q;
  fx : option Q;
  fy : option Q
}.

(** The part of d3's simulation object that the drag handlers touch.
    [running] tells whether the internal timer is scheduled. *)
Record Simulation : Type := mkSimulation {
  alpha : Q;
  alphaTarget : Q;
  running : bool
}.

(** d3-force: the value of alpha of a new simulation. *)
Definition initialAlpha : Q := 1.

(** d3-force [simulation.alphaTarget(t)]: stores the target, nothing else. *)
Definition set_alphaTarget (t : Q) (s : Simulation) : Simulation :=
  {| alpha := alpha s; alphaTarget := t; running := running s |}.

(** d3-force [simulation.restart()]: reschedules the timer, nothing else. *)
Definition restart (s : Simulation) : Simulation :=
  {| alpha := alpha s; alphaTarget := alphaTarget s; running := true |}.

(** d3-force [simulation.stop()]: cancels the timer, nothing else. *)
Definition stop (s : Simulation) : Simulation :=
  {| alpha := alpha s; alphaTarget := alphaTarget s; running := false |}.

(** The state shared by the effect's closures: the node array and the
    simulation. *)
Record GraphState : Type := mkGraphState {
  nodes : list GraphNode;
  simulation : Simulation
}.

(** A drag event: [active] counts the other gestures in progress,
    [subject] is the dragged node, given by its index in [nodes] (the
    event carries the node object itself), [ev_x]/[ev_y] the pointer. *)
Record DragEvent : Type := mkDragEvent {
  active : nat;
  subject : nat;
  ev_x : Q;
  ev_y : Q
}.

Definition pinAt (px py : option Q) (n : GraphNode) : GraphNode :=
  {| node_id := node_id n; x := x n; y := y n; vx := vx n; vy := vy n;
     fx := px; fy := py |}.

Definition dragstarted (event : DragEvent) (st : GraphState) : GraphState :=
  let sim :=
    if (active event =? 0)%nat
    then restart (set_alphaTarget (3 # 10) (simulation st))
    else simulation st in
  {| nodes := alter (fun n => pinAt (Some (x n)) (Some (y n)) n) (subject event) (nodes st);
     simulation := sim |}.

Definition dragged (event : DragEvent) (st : GraphState) : GraphState :=
  {| nodes := alter (pinAt (Some (ev_x event)) (Some (ev_y event))) (subject event) (nodes st);
     simulation := simulation st |}.

Definition dragended (event : DragEvent) (st : GraphState) : GraphState :=
  let sim :=
    if (active event =? 0)%nat
    then set_alphaTarget 0 (simulation st)
    else simulation st in
  {| nodes := alter (pinAt None None) (subject event) (nodes st);
     simulation := sim |}.

(* ================================================================== *)
(** ** Further code of the same files *)
(* ================================================================== *)

(** *** JavaScript library functions *)

(** [a - b] on numbers. *)
Definition num_sub (a b : number) : number :=
  match a, b with
  | NaN, _ | _, NaN => NaN
  | Fin x, Fin y => Fin (x - y)
  | Fin _, PosInf => NegInf
  | Fin _, NegInf => PosInf
  | PosInf, PosInf => NaN
  | PosInf, _ => PosInf
  | NegInf, NegInf => NaN
  | NegInf, _ => NegInf
  end.

(** [s.startsWith(p)] *)
Definition startsWith (s p : string) : bool := String.prefix p s.

(** [s.endsWith(suffix)] *)
Definition endsWith (s suffix : string) : bool :=
  let n := String.length s in
  let m := String.length suffix in
  (m <=? n)%nat && String.eqb (substring (n - m) m s) suffix.

(** [array.sort(compare)], a stable sort.  [after y x] tells that
    [compare(y, x) > 0], that is, that [y] has to come after [x]; an
    element is put in front of the first element that has to come after
    it, so elements that compare equal keep their order. *)
Fixpoint sort_insert {A} (after : A → A → bool) (x : A) (l : list A) : list A :=
  match l with
  | [] => [x]
  | y :: l' => if after y x then x :: y :: l' else y :: sort_insert after x l'
  end.

Definition Array_sort {A} (after : A → A → bool) (l : list A) : list A :=
  foldl (fun acc x => sort_insert after x acc) [] l.

(** [array.filter((a, i) => p(a, i))], the index starting at [i]. *)
Fixpoint filter_index {A} (p : A → nat → bool) (i : nat) (l : list A) : list A :=
  match l with
  | [] => []
  | a :: l' =>
      if p a i then a :: filter_index p (S i) l' else filter_index p (S i) l'
  end.

(** *** types.ts: the values of the [Chronology] enum *)

Definition chronologyValue (c : Chronology) : string :=
  match c with
  | MEGALITHIC => "Megalithic"
  | SANGAM => "Sangam Age"
  | EARLY_HISTORIC => "Early Historic"
  | MEDIEVAL => "Medieval"
  | UNKNOWN => "Unknown Period"
  end.

(** *** App.tsx: updates of the working set *)

(** [setSites(prev => [...prev, newSite])] *)
Definition handleAddSite (newSite : Site) (prev : list Site) : list Site :=
  prev ++ [newSite].

(** [setSites(prev => prev.map(s => s.id === updatedSite.id ? updatedSite : s))] *)
Definition handleUpdateSite (updatedSite : Site) (prev : list Site) : list Site :=
  map (fun s => if String.eqb (id s) (id updatedSite) then updatedSite else s) prev.

(** *** SiteDetails.tsx *)

(** The score computed inline by [topSimilarSites]. *)
Definition candidateScore (site s : Site) : number :=
  let materialsA := materialsOf site in
  let materialsB := materialsOf s in
  let intersection := intersectionOf materialsA materialsB in
  let union := unionOf materialsA materialsB in
  if (JSSet.size union =? 0)%nat then Fin 0
  else size_div (JSSet.size intersection) (JSSet.size union).

(** The comparator [(a, b) => b.score - a.score] is positive. *)
Definition scoreAfter (a b : Site * number) : bool :=
  num_gt (num_sub b.2 a.2) (Fin 0).

(** The entries are the objects [{ site: s, score }]. *)
Definition topSimilarSites (site : Site) (allSites : list Site) : list (Site * number) :=
  take 3
    (Array_sort scoreAfter
       (map (fun s => (s, candidateScore site s))
          (List.filter (fun s => negb (String.eqb (id s) (id site))) allSites))).

Definition withArtifacts (site : Site) (arts : list Artifact) : Site :=
  {| id := id site; name := name site; location := location site;
     chronology := chronology site; description := description site;
     artifacts := arts; structures := structures site |}.

(** [handleAddArtifact]: the site handed to [onUpdateSite], or [None]
    when the form is rejected with an alert. *)
Definition handleAddArtifact (newArtifact : Artifact) (site : Site) : option Site :=
  if String.eqb (art_name newArtifact) "" || String.eqb (material newArtifact) ""
  then None
  else Some (withArtifacts site (artifacts site ++ [newArtifact])).

(** [removeArtifact]: the site handed to [onUpdateSite]. *)
Definition removeArtifact (index : nat) (site : Site) : Site :=
  let updatedArtifacts :=
    filter_index (fun _ i => negb (i =? index)%nat) 0 (artifacts site) in
  withArtifacts site updatedArtifacts.

(** *** Dashboard.tsx: file check and filters *)

Record File : Type := mkFile {
  file_name : string;
  file_type : string
}.

Definition isText (file : File) : bool :=
  startsWith (file_type file) "text/"
  || endsWith (file_name file) ".txt"
  || endsWith (file_name file) ".md".

Definition isPdf (file : File) : bool :=
  String.eqb (file_type file) "application/pdf"
  || endsWith (file_name file) ".pdf".

(** [handleFile]: the error message it sets, or the file it hands to
    [processReport]. *)
Definition handleFile (file : File) : string + File :=
  if negb (isText file) && negb (isPdf file)
  then inl "Please upload a text or PDF file."
  else inr file.

Definition matchesSearch (searchTerm : string) (site : Site) : bool :=
  JSString.includes (JSString.toLowerCase (name site)) (JSString.toLowerCase searchTerm)
  || JSString.includes (JSString.toLowerCase (description site))
       (JSString.toLowerCase searchTerm).

Definition matchesDistrict (filterDistrict : string) (site : Site) : bool :=
  String.eqb filterDistrict "" || String.eqb (district (location site)) filterDistrict.

Definition matchesChronology (filterChronology : string) (site : Site) : bool :=
  String.eqb filterChronology ""
  || existsb (fun c => String.eqb (chronologyValue c) filterChronology) (chronology site).

Definition filteredSites (sites : list Site)
    (searchTerm filterDistrict filterChronology : string) : list Site :=
  List.filter
    (fun site =>
       matchesSearch searchTerm site
       && matchesDistrict filterDistrict site
       && matchesChronology filterChronology site)
    sites.

(** [Array.from(new Set(sites.map(s => s.location.district))).filter(Boolean).sort()];
    the default order of [sort] is the one of the code units. *)
Definition uniqueDistricts (sites : list Site) : list string :=
  Array_sort (fun a b => String.ltb b a)
    (List.filter (fun d => negb (String.eqb d ""))
       (JSSet.new_Set (map (fun s => district (location s)) sites))).

(** *** geminiService.ts: file routing and truncation *)

Inductive Reader : Type := PdfReader | TextReader.

(** The branch [extractSiteAnalysis] takes for a file. *)
Definition reportReader (input : File) : Reader :=
  if String.eqb (file_type input) "application/pdf"
     || endsWith (JSString.toLowerCase (file_name input)) ".pdf"
  then PdfReader
  else TextReader.

Definition truncateReport (reportText : string) : string :=
  if (5000 <? String.length reportText)%nat
  then substring 0 5000 reportText ++ "... [truncated for length]"
  else reportText.

(* ================================================================== *)
(** ** Notions used to state the properties *)
(* ================================================================== *)

(** The finite set of lower-cased materials of a site. *)
Definition materialSet (s : Site) : gset string :=
  list_to_set (materialsOf s).

(** How many entries of [results] are about the unordered pair of
    identifiers [{x, y}], in either orientation. *)
Definition pairCount (results : list SimilarityResult) (x y : string) : nat :=
  length (List.filter (matchesPair x y) results).

(** The entry of [results] produced at the index pair [ij]. *)
Definition resultAt (sites : list Site) (ij : nat * nat) (r : SimilarityResult) : Prop :=
  ∃ a b, sites !! ij.1 = Some a ∧ sites !! ij.2 = Some b ∧ r = mkResult a b.

(** The result [r] is about the pair of identifiers [id1], [id2], in
    one orientation or the other. *)
Definition isAbout (id1 id2 : string) (r : SimilarityResult) : Prop :=
  (sourceId r = id1 ∧ targetId r = id2) ∨ (sourceId r = id2 ∧ targetId r = id1).

(** The number [n] is strictly greater than the rational [q]. *)
Definition numAbove (n : number) (q : Q) : Prop :=
  match n with
  | Fin v => (q < v)%Q
  | PosInf => True
  | NegInf | NaN => False
  end.

(** An index pair moved one position to the right. *)
Definition shiftPair (ij : nat * nat) : nat * nat := (S ij.1, S ij.2).

(** The keyword [k] occurs in [text] as a contiguous substring. *)
Definition occursIn (k text : string) : Prop :=
  ∃ pre post, text = pre ++ k ++ post.

(** Some keyword of the group occurs in [text]. *)
Definition groupHits (text : string) (group : Chronology * list string) : Prop :=
  ∃ k, k ∈ group.2 ∧ occursIn k text.

(** Every character of [s] satisfies [p]. *)
Definition allChars (p : ascii → bool) (s : string) : Prop :=
  Forall (fun c => p c = true) (list_ascii_of_string s).

(** The digit characters of base 36: [0-9a-z]. *)
Definition isDigit36 (c : ascii) : bool :=
  JSString.is_digit c || JSString.is_lower c.

(** The code unit of a character. *)
Definition codeOf (c : ascii) : Z := Z.of_nat (nat_of_ascii c).

(** The accumulation of [stringToHash] over unbounded integers: start
    from 0 and replace [h] by [31 * h + code] for each character in
    turn, that is, the sum of [code_i * 31 ^ (n - 1 - i)]. *)
Definition polyHash (str : string) : Z :=
  fold_left (fun h c => 31 * h + codeOf c)%Z (list_ascii_of_string str) 0%Z.

(** A digit list is the canonical rendering of [n] in base [radix]:
    every digit has a value below the radix, the digits read back as
    [n], and there is no leading zero (a single digit, or a value of at
    least [radix ^ (length - 1)]). *)
Definition canonicalDigits (radix n : Z) (ds : list ascii) : Prop :=
  ds ≠ []
  ∧ Forall (fun c => isDigit36 c = true ∧ (0 <= digitVal c < radix)%Z) ds
  ∧ parseDigits radix ds = n
  ∧ (length ds = 1%nat ∨ (radix ^ (Z.of_nat (length ds) - 1) <= n)%Z).

(** A graph that has cooled down: two nodes at rest, alpha below
    the stopping value 0.001, the timer stopped. *)
Definition cooledState : GraphState :=
  {| nodes :=
       [ mkGraphNode "adichanallur" 300 250 0 0 None None;
         mkGraphNode "keezhadi" 520 250 0 0 None None ];
     simulation := {| alpha := 1 # 2000; alphaTarget := 0; running := false |} |}.

(** The first gesture on the first node. *)
Definition firstDrag : DragEvent :=
  {| active := 0; subject := 0; ev_x := 310; ev_y := 260 |}.

(** Both numbers are finite and the first is at most the second. *)
Definition numLe (a b : number) : Prop :=
  match a, b with
  | Fin v, Fin w => (v <= w)%Q
  | _, _ => False
  end.

(** The number is finite. *)
Definition isFin (a : number) : Prop :=
  match a with Fin _ => True | _ => False end.

(** The characters of a normalized field: [a-z0-9] and the dash. *)
Definition isSlugChar (c : ascii) : bool :=
  JSString.is_lower_alnum c || Ascii.eqb c "-".

(** Only characters of [a-z0-9] and dashes, no dash right after a dash;
    [in_run] tells that the previous character was a dash. *)
Fixpoint slugShape (in_run : bool) (s : string) : bool :=
  match s with
  | EmptyString => true
  | String c s' =>
      if JSString.is_lower_alnum c then slugShape false s'
      else Ascii.eqb c "-" && negb in_run && slugShape true s'
  end.

(* ================================================================== *)
(** * Properties *)
(* ================================================================== *)

(** ** JavaScript sets and their abstraction to [gset] *)

Section JSSet_facts.
Context {A : Type} `{EqDecision A}.
Implicit Types (s l : list A) (x : A).

Lemma has_true s x : JSSet.has s x = true ↔ x ∈ s.
Proof. unfold JSSet.has. apply bool_decide_eq_true. Qed.

Lemma elem_of_add s x z : z ∈ JSSet.add s x ↔ z ∈ s ∨ z = x.
Proof.
  unfold JSSet.add. destruct (JSSet.has s x) eqn:E.
  - apply has_true in E. split; [auto | intros [?| ->]; done].
  - rewrite elem_of_app, list_elem_of_singleton. done.
Qed.

Lemma NoDup_add s x : NoDup s → NoDup (JSSet.add s x).
Proof.
  intros Hs. unfold JSSet.add. destruct (JSSet.has s x) eqn:E; [done|].
  apply NoDup_app. split_and!; [done | | apply NoDup_singleton].
  intros z Hz Hx. apply list_elem_of_singleton in Hx as ->.
  apply has_true in Hz. congruence.
Qed.

Lemma elem_of_foldl_add l s z : z ∈ foldl JSSet.add s l ↔ z ∈ s ∨ z ∈ l.
Proof.
  revert s. induction l as [|x l IH]; intros s; simpl.
  - rewrite elem_of_nil. tauto.
  - rewrite IH, elem_of_add, elem_of_cons. tauto.
Qed.

Lemma NoDup_foldl_add l s : NoDup s → NoDup (foldl JSSet.add s l).
Proof.
  revert s. induction l as [|x l IH]; intros s Hs; simpl; [done|].
  apply IH. by apply NoDup_add.
Qed.

Lemma elem_of_new_Set l z : z ∈ JSSet.new_Set l ↔ z ∈ l.
Proof.
  unfold JSSet.new_Set. rewrite elem_of_foldl_add, elem_of_nil. tauto.
Qed.

Lemma NoDup_new_Set l : NoDup (JSSet.new_Set l).
Proof. apply NoDup_foldl_add, NoDup_nil_2. Qed.

Lemma new_Set_nil_inv l : JSSet.new_Set l = [] → l = [].
Proof.
  destruct l as [|x l]; [done|]. intros E.
  assert (x ∈ JSSet.new_Set (x :: l)) as Hx
    by (apply elem_of_new_Set; left).
  rewrite E in Hx. by apply elem_of_nil in Hx.
Qed.

End JSSet_facts.

Section JSSet_size.
Context `{Countable A}.

(** The size of a set built by [new Set] is the cardinal of the finite
    set of the elements of its argument. *)
Lemma size_new_Set l :
  JSSet.size (JSSet.new_Set l) = size (list_to_set l : gset A).
Proof.
  unfold JSSet.size.
  rewrite <- (size_list_to_set (C:=gset A) (JSSet.new_Set l))
    by apply NoDup_new_Set.
  f_equal. apply set_eq. intros z.
  rewrite !elem_of_list_to_set. apply elem_of_new_Set.
Qed.

End JSSet_size.

(** ** Similarity engine *)

Lemma size_intersectionOf (a b : Site) :
  JSSet.size (intersectionOf (materialsOf a) (materialsOf b))
  = size (materialSet a ∩ materialSet b).
Proof.
  unfold intersectionOf. rewrite size_new_Set. f_equal.
  apply set_eq. intros z. unfold materialSet.
  rewrite elem_of_list_to_set, list_elem_of_filter, has_true.
  rewrite elem_of_intersection, !elem_of_list_to_set. tauto.
Qed.

Lemma size_unionOf (a b : Site) :
  JSSet.size (unionOf (materialsOf a) (materialsOf b))
  = size (materialSet a ∪ materialSet b).
Proof.
  unfold unionOf. rewrite size_new_Set. f_equal.
  unfold materialSet. apply list_to_set_app_L.
Qed.

(** The score in terms of the two material sets. *)
Lemma calculateSim_sets (a b : Site) :
  calculateSim a b =
    if (size (materialSet a ∪ materialSet b) =? 0)%nat then Fin 0
    else size_div (size (materialSet a ∩ materialSet b))
                  (size (materialSet a ∪ materialSet b)).
Proof.
  unfold calculateSim. cbv zeta.
  by rewrite size_intersectionOf, size_unionOf.
Qed.

(** C1. The similarity score is symmetric: for every two sites [a] and
    [b], [calculateSim a b] and [calculateSim b a] are the same number. *)
Theorem calculateSim_symmetric (a b : Site) :
  calculateSim a b = calculateSim b a.
Proof.
  rewrite !calculateSim_sets.
  rewrite (comm_L (∪) (materialSet a) (materialSet b)).
  by rewrite (comm_L (∩) (materialSet a) (materialSet b)).
Qed.

Lemma size_div_bounds (n d : nat) :
  (n ≤ d)%nat → d ≠ 0%nat →
  ∃ q, size_div n d = Fin q ∧ (0 <= q)%Q ∧ (q <= 1)%Q.
Proof.
  intros Hnd Hd. destruct d as [|d]; [done|].
  eexists. split; [reflexivity|].
  unfold Qle. cbn [Qnum Qden]. split; [lia|].
  rewrite Z.mul_1_r, Z.mul_1_l. lia.
Qed.

Lemma materialsOf_no_artifacts (s : Site) :
  artifacts s = [] → materialsOf s = [].
Proof. unfold materialsOf. by intros ->. Qed.

(** C2. For every two sites the score is a finite number between 0 and
    1 (so it is never [NaN] nor infinite), and it is exactly 0 when
    neither site has an artifact. *)
Theorem calculateSim_bounded (a b : Site) :
  (∃ q, calculateSim a b = Fin q ∧ (0 <= q)%Q ∧ (q <= 1)%Q)
  ∧ (artifacts a = [] → artifacts b = [] → calculateSim a b = Fin 0).
Proof.
  split.
  - rewrite calculateSim_sets.
    destruct (Nat.eqb_spec (size (materialSet a ∪ materialSet b)) 0) as [E|E].
    + exists 0%Q. split; [done|]. split; discriminate.
    + apply size_div_bounds; [|done].
      apply subseteq_size. intros z Hz.
      apply elem_of_intersection in Hz as [Hz _].
      apply elem_of_union. by left.
  - intros Ha Hb. unfold calculateSim.
    rewrite (materialsOf_no_artifacts a Ha).
    rewrite (materialsOf_no_artifacts b Hb). reflexivity.
Qed.

Lemma calculateSim_bounded_witness :
  (∃ q, calculateSim (mkSite "a" "A" (mkLocation 0 0 "d") [] "" [] [])
                     (mkSite "b" "B" (mkLocation 0 0 "d") [] "" [] []) = Fin q
        ∧ (0 <= q)%Q ∧ (q <= 1)%Q)
  ∧ calculateSim (mkSite "a" "A" (mkLocation 0 0 "d") [] "" [] [])
                 (mkSite "b" "B" (mkLocation 0 0 "d") [] "" [] []) = Fin 0.
Proof.
  pose proof (calculateSim_bounded
                (mkSite "a" "A" (mkLocation 0 0 "d") [] "" [] [])
                (mkSite "b" "B" (mkLocation 0 0 "d") [] "" [] [])) as [H1 H2].
  split; [exact H1 | apply H2; reflexivity].
Defined.

(** C3. The worked example: Adichanallur has the materials terracotta,
    iron and gold, Keezhadi has terracotta and glass; one material is
    shared out of four, and the score is 1/4 = 0.25. *)
Theorem calculateSim_worked_example :
  materialsOf adichanallur = ["terracotta"; "iron"; "gold"]
  ∧ materialsOf keezhadi = ["terracotta"; "glass"]
  ∧ JSSet.size (intersectionOf (materialsOf adichanallur) (materialsOf keezhadi)) = 1%nat
  ∧ JSSet.size (unionOf (materialsOf adichanallur) (materialsOf keezhadi)) = 4%nat
  ∧ calculateSim adichanallur keezhadi = Fin (1 # 4).
Proof. repeat split; vm_compute; reflexivity. Qed.

(** ** The pairwise loop *)

Lemma flat_map_map_in {A B C} (f : B → list C) (g : A → B) (l : list A) :
  flat_map f (map g l) = flat_map (fun a => f (g a)) l.
Proof. induction l as [|a l IH]; simpl; [done | by rewrite IH]. Qed.

Lemma map_flat_map_out {A B C} (f : A → list B) (g : B → C) (l : list A) :
  map g (flat_map f l) = flat_map (fun a => map g (f a)) l.
Proof.
  induction l as [|a l IH]; simpl; [done|]. by rewrite map_app, IH.
Qed.

(** Unrolling the outer loop once: the pairs with [i = 0], then the
    pairs of the remaining indices, shifted by one. *)
Lemma pairIndices_S (n : nat) :
  pairIndices (S n)
  = (map (pair 0%nat) (seq 1 n) ++ map shiftPair (pairIndices n))%list.
Proof.
  unfold pairIndices at 1. cbn [seq flat_map].
  replace (S n - (0 + 1))%nat with n by lia. f_equal.
  rewrite <- seq_shift, flat_map_map_in.
  unfold pairIndices. rewrite map_flat_map_out.
  apply flat_map_ext. intros i.
  replace (S n - (S i + 1))%nat with (n - (i + 1))%nat by lia.
  replace (S i + 1)%nat with (S (i + 1)) by lia.
  rewrite <- seq_shift, !map_map. reflexivity.
Qed.

Lemma length_pairIndices_twice (n : nat) :
  (2 * length (pairIndices n) = n * (n - 1))%nat.
Proof.
  induction n as [|n IH]; [done|].
  rewrite pairIndices_S, length_app, !length_map, length_seq.
  destruct n as [|n]; [simpl; lia|].
  replace (S (S n) - 1)%nat with (S n) by lia.
  replace (S n - 1)%nat with n in IH by lia. nia.
Qed.

Lemma length_pairIndices (n : nat) :
  length (pairIndices n) = (n * (n - 1) / 2)%nat.
Proof.
  rewrite <- length_pairIndices_twice.
  rewrite Nat.mul_comm, Nat.div_mul; lia.
Qed.

Lemma elem_of_pairIndices (n i j : nat) :
  (i, j) ∈ pairIndices n ↔ (i < j)%nat ∧ (j < n)%nat.
Proof.
  unfold pairIndices. rewrite list_elem_of_In, in_flat_map. split.
  - intros (i' & Hi' & Hin). apply in_map_iff in Hin as (j' & Heq & Hj').
    inversion Heq; subst. apply in_seq in Hi', Hj'. lia.
  - intros [Hij Hjn]. exists i. split; [apply in_seq; lia|].
    apply in_map_iff. exists j. split; [done | apply in_seq; lia].
Qed.

Lemma NoDup_pairIndices (n : nat) : NoDup (pairIndices n).
Proof.
  induction n as [|n IH]; [constructor|].
  rewrite pairIndices_S. apply NoDup_app. split_and!.
  - apply NoDup_fmap_2; [intros ?? [=]; done | apply NoDup_seq].
  - intros [i j] H0 HS.
    apply list_elem_of_fmap in H0 as (j' & [= -> ->] & _).
    apply list_elem_of_fmap in HS as ([i' j''] & Heq & _).
    unfold shiftPair in Heq. simpl in Heq. congruence.
  - apply NoDup_fmap_2; [|done].
    intros [a b] [c d]. unfold shiftPair. simpl. congruence.
Qed.

(** One run of the inner loop, started at [j = k + 1] with outer index
    0: it pushes one result per remaining site. *)
Lemma computeSimilarity_row (a : Site) (rest l : list Site) (k : nat) :
  drop k rest = l →
  flat_map (fun j : nat =>
              match (a :: rest) !! 0%nat, (a :: rest) !! j with
              | Some a0, Some b => [mkResult a0 b]
              | _, _ => []
              end) (seq (S k) (length l))
  = map (mkResult a) l.
Proof.
  revert k. induction l as [|b l IH]; intros k Hk; [done|].
  cbn [length seq flat_map map].
  rewrite IH.
  - change ((a :: rest) !! 0%nat) with (Some a).
    change ((a :: rest) !! S k) with (rest !! k).
    assert (rest !! k = Some b) as ->; [|done].
    rewrite <- (Nat.add_0_r k), <- lookup_drop, Hk. done.
  - replace (S k) with (k + 1)%nat by lia.
    rewrite <- drop_drop, Hk. done.
Qed.

(** The same unrolling for the results. *)
Lemma computeSimilarity_cons (a : Site) (rest : list Site) :
  computeSimilarity (a :: rest)
  = (map (mkResult a) rest ++ computeSimilarity rest)%list.
Proof.
  unfold computeSimilarity. cbn [length].
  rewrite pairIndices_S, flat_map_app. f_equal.
  - rewrite flat_map_map_in. cbn [fst snd].
    apply (computeSimilarity_row a rest rest 0). apply drop_0.
  - rewrite flat_map_map_in. apply flat_map_ext. intros [i j]. done.
Qed.

Lemma computeSimilarity_resultAt (sites : list Site) :
  Forall2 (resultAt sites) (pairIndices (length sites)) (computeSimilarity sites).
Proof.
  unfold computeSimilarity.
  assert (∀ ij, ij ∈ pairIndices (length sites) →
                (ij.1 < length sites)%nat ∧ (ij.2 < length sites)%nat) as Hrange.
  { intros [i j] Hij. apply elem_of_pairIndices in Hij. simpl. lia. }
  induction (pairIndices (length sites)) as [|ij idx IH]; [constructor|].
  cbn [flat_map].
  destruct (Hrange ij) as [H1 H2]; [left|].
  apply lookup_lt_is_Some_2 in H1 as [a Ha], H2 as [b Hb].
  rewrite Ha, Hb. cbn [app]. constructor.
  - exists a, b. done.
  - apply IH. intros ij' Hij'. apply Hrange. by right.
Qed.

Lemma matchesPair_comm (x y : string) (r : SimilarityResult) :
  matchesPair x y r = matchesPair y x r.
Proof. unfold matchesPair. apply orb_comm. Qed.

Lemma pairCount_app (l1 l2 : list SimilarityResult) (x y : string) :
  pairCount (l1 ++ l2) x y = (pairCount l1 x y + pairCount l2 x y)%nat.
Proof. unfold pairCount. by rewrite List.filter_app, length_app. Qed.

Lemma pairCount_comm (l : list SimilarityResult) (x y : string) :
  pairCount l x y = pairCount l y x.
Proof.
  unfold pairCount. f_equal. apply List.filter_ext. intros r.
  apply matchesPair_comm.
Qed.

Lemma pairCount_none (l : list SimilarityResult) (x y : string) :
  (∀ r, r ∈ l → matchesPair x y r = false) → pairCount l x y = 0%nat.
Proof.
  unfold pairCount. induction l as [|r l IH]; intros Hl; [done|].
  simpl. rewrite (Hl r) by left. apply IH. intros r' Hr'. apply Hl. by right.
Qed.

(** The results only mention identifiers of the working set. *)
Lemma computeSimilarity_ids (sites : list Site) (r : SimilarityResult) :
  r ∈ computeSimilarity sites →
  sourceId r ∈ map id sites ∧ targetId r ∈ map id sites.
Proof.
  induction sites as [|a rest IH]; [by intros ?%elem_of_nil|].
  rewrite computeSimilarity_cons, elem_of_app. intros [Hr|Hr].
  - apply list_elem_of_fmap in Hr as (b & -> & Hb). simpl. split; [left|].
    right. apply list_elem_of_fmap. eauto.
  - destruct (IH Hr). split; by right.
Qed.

(** The row of a site [a] holds exactly one entry about [{id a, y}]
    when [y] names one of the later sites and identifiers are unique. *)
Lemma pairCount_row (a : Site) (rest : list Site) (y : string) :
  y ≠ id a → NoDup (map id rest) → y ∈ map id rest →
  pairCount (map (mkResult a) rest) (id a) y = 1%nat.
Proof.
  intros Hy. unfold pairCount.
  assert (∀ b, matchesPair (id a) y (mkResult a b) = String.eqb (id b) y) as Hm.
  { intros b. unfold matchesPair. simpl. rewrite String.eqb_refl. simpl.
    destruct (String.eqb_spec (id a) y) as [E|E]; [congruence|].
    simpl. apply orb_false_r. }
  induction rest as [|b rest IH]; intros Hnd Hin; [by apply elem_of_nil in Hin|].
  cbn [map List.filter]. rewrite Hm.
  apply NoDup_cons in Hnd as [Hb Hnd].
  destruct (String.eqb_spec (id b) y) as [E|E].
  - cbn [length]. f_equal. subst y.
    change (pairCount (map (mkResult a) rest) (id a) (id b) = 0%nat).
    apply pairCount_none. intros r Hr.
    apply list_elem_of_fmap in Hr as (c & -> & Hc). rewrite Hm.
    apply String.eqb_neq. intros E. apply Hb. rewrite <- E.
    apply list_elem_of_fmap. eauto.
  - apply IH; [done|]. apply elem_of_cons in Hin as [Hin|Hin]; [|done].
    simpl in Hin. congruence.
Qed.

Lemma pairCount_computeSimilarity (sites : list Site) (x y : string) :
  NoDup (map id sites) → x ∈ map id sites → y ∈ map id sites → x ≠ y →
  pairCount (computeSimilarity sites) x y = 1%nat.
Proof.
  induction sites as [|a rest IH]; intros Hnd Hx Hy Hxy;
    [by apply elem_of_nil in Hx|].
  cbn [map] in Hnd, Hx, Hy. apply NoDup_cons in Hnd as [Ha Hnd].
  rewrite computeSimilarity_cons, pairCount_app.
  assert (∀ z, pairCount (computeSimilarity rest) (id a) z = 0%nat) as Hlater.
  { intros z. apply pairCount_none. intros r Hr.
    apply computeSimilarity_ids in Hr as [Hs Ht].
    unfold matchesPair.
    destruct (String.eqb_spec (sourceId r) (id a)) as [E|E];
      [rewrite E in Hs; done|].
    destruct (String.eqb_spec (targetId r) (id a)) as [E'|E'];
      [rewrite E' in Ht; done|].
    simpl. by rewrite andb_false_r. }
  apply elem_of_cons in Hx as [->|Hx]; apply elem_of_cons in Hy as [->|Hy].
  - done.
  - rewrite pairCount_row, Hlater by done. done.
  - rewrite (pairCount_comm _ x), (pairCount_comm _ x).
    rewrite pairCount_row, Hlater by done. done.
  - rewrite IH by done.
    rewrite pairCount_none; [done|]. intros r Hr.
    apply list_elem_of_fmap in Hr as (b & -> & Hb).
    unfold matchesPair. simpl.
    destruct (String.eqb_spec (id a) x) as [E|E]; [rewrite <- E in Hx; done|].
    destruct (String.eqb_spec (id a) y) as [E'|E']; [rewrite <- E' in Hy; done|].
    done.
Qed.

(** C4. Recomputing the similarity data of a working set of [n] sites
    yields [n * (n - 1) / 2] results, one for each index pair [i < j < n]
    and in the order of the loops: position by position the result is
    the one built from [sites[i]] and [sites[j]], no index pair occurs
    twice and every pair [i < j < n] occurs.  When identifiers are
    unique, any two distinct sites of the working set have exactly one
    result between them, counted in either orientation. *)
Theorem computeSimilarity_complete (sites : list Site) :
  length (computeSimilarity sites)
  = (length sites * (length sites - 1) / 2)%nat
  ∧ Forall2 (resultAt sites) (pairIndices (length sites)) (computeSimilarity sites)
  ∧ NoDup (pairIndices (length sites))
  ∧ (∀ i j, (i, j) ∈ pairIndices (length sites) ↔ (i < j)%nat ∧ (j < length sites)%nat)
  ∧ (NoDup (map id sites) →
     ∀ a b, a ∈ sites → b ∈ sites → a ≠ b →
       pairCount (computeSimilarity sites) (id a) (id b) = 1%nat).
Proof.
  split_and!.
  - rewrite <- (Forall2_length _ _ _ (computeSimilarity_resultAt sites)).
    apply length_pairIndices.
  - apply computeSimilarity_resultAt.
  - apply NoDup_pairIndices.
  - intros i j. apply elem_of_pairIndices.
  - intros Hnd a b Ha Hb Hab.
    apply pairCount_computeSimilarity; [done | | |].
    + apply list_elem_of_fmap. eauto.
    + apply list_elem_of_fmap. eauto.
    + intros E. apply Hab.
      apply list_elem_of_lookup in Ha as [i Hi], Hb as [j Hj].
      assert (i = j) as ->; [|congruence].
      apply (NoDup_lookup (map id sites) i j (id a) Hnd).
      * by rewrite list_lookup_fmap, Hi.
      * rewrite list_lookup_fmap, Hj. simpl. by rewrite E.
Qed.

Lemma computeSimilarity_complete_witness :
  length (computeSimilarity TN_SITES) = 10%nat
  ∧ pairCount (computeSimilarity TN_SITES) (id keezhadi) (id adichanallur) = 1%nat.
Proof.
  destruct (computeSimilarity_complete TN_SITES) as (Hlen & _ & _ & _ & Hone).
  split; [exact Hlen|].
  apply Hone.
  - apply (bool_decide_unpack _). vm_compute. exact I.
  - right. left.
  - left.
  - discriminate.
Defined.

(** ** Similarity matrix lookup *)

Lemma matchesPair_true (id1 id2 : string) (r : SimilarityResult) :
  matchesPair id1 id2 r = true ↔ isAbout id1 id2 r.
Proof.
  unfold matchesPair, isAbout.
  rewrite orb_true_iff, !andb_true_iff, !String.eqb_eq. done.
Qed.

Lemma matchesPair_false (id1 id2 : string) (r : SimilarityResult) :
  matchesPair id1 id2 r = false ↔ ¬ isAbout id1 id2 r.
Proof.
  rewrite <- matchesPair_true. destruct (matchesPair id1 id2 r); split; done.
Qed.

Lemma find_first {A} (p : A → bool) (pre post : list A) (r : A) :
  (∀ r', r' ∈ pre → p r' = false) → p r = true →
  List.find p (pre ++ r :: post) = Some r.
Proof.
  induction pre as [|r0 pre IH]; intros Hpre Hr; simpl.
  - by rewrite Hr.
  - rewrite (Hpre r0) by left. apply IH; [|done].
    intros r' Hr'. apply Hpre. by right.
Qed.

Lemma find_none_all {A} (p : A → bool) (l : list A) :
  (∀ r, r ∈ l → p r = false) → List.find p l = None.
Proof.
  induction l as [|r l IH]; intros Hl; simpl; [done|].
  rewrite (Hl r) by left. apply IH. intros r' Hr'. apply Hl. by right.
Qed.

(** C10. The matrix lookup: 1 on the diagonal, whatever the results
    are; off the diagonal, the score stored in the first result about
    the two identifiers in either orientation; 0 when no result is
    about them. *)
Theorem getScore_spec (results : list SimilarityResult) (id1 id2 : string) :
  (id1 = id2 → getScore results id1 id2 = Fin 1)
  ∧ (id1 ≠ id2 →
     ∀ pre r post,
       results = (pre ++ r :: post)%list →
       (∀ r', r' ∈ pre → ¬ isAbout id1 id2 r') →
       isAbout id1 id2 r →
       getScore results id1 id2 = score r)
  ∧ (id1 ≠ id2 →
     (∀ r, r ∈ results → ¬ isAbout id1 id2 r) →
     getScore results id1 id2 = Fin 0).
Proof.
  unfold getScore. split_and!.
  - intros ->. by rewrite String.eqb_refl.
  - intros Hne pre r post -> Hpre Hr.
    apply String.eqb_neq in Hne as ->.
    rewrite find_first; [done | | by apply matchesPair_true].
    intros r' Hr'. by apply matchesPair_false, Hpre.
  - intros Hne Hnone. apply String.eqb_neq in Hne as ->.
    rewrite find_none_all; [done|].
    intros r Hr. by apply matchesPair_false, Hnone.
Qed.

Lemma getScore_spec_witness :
  getScore (computeSimilarity TN_SITES) "keezhadi" "keezhadi" = Fin 1
  ∧ getScore (computeSimilarity TN_SITES) "keezhadi" "adichanallur" = Fin (1 # 4)
  ∧ getScore [] "keezhadi" "adichanallur" = Fin 0.
Proof.
  split_and!.
  - apply (getScore_spec (computeSimilarity TN_SITES) "keezhadi" "keezhadi").
    reflexivity.
  - apply (proj1 (proj2 (getScore_spec (computeSimilarity TN_SITES)
                           "keezhadi" "adichanallur"))
             ltac:(discriminate) [] (mkResult adichanallur keezhadi)
             (tail (computeSimilarity TN_SITES))).
    + vm_compute. reflexivity.
    + intros r' Hr'. by apply elem_of_nil in Hr'.
    + right. split; reflexivity.
  - apply (getScore_spec [] "keezhadi" "adichanallur"); [discriminate|].
    intros r Hr. by apply elem_of_nil in Hr.
Defined.

(** ** Graph builder *)

Lemma Qlt_bool_true (x y : Q) : Qlt_bool x y = true ↔ (x < y)%Q.
Proof. unfold Qlt_bool, Qlt. apply Z.ltb_lt. Qed.

Lemma num_gt_Fin (n : number) (q : Q) :
  num_gt n (Fin q) = true ↔ numAbove n q.
Proof.
  destruct n; simpl; [apply Qlt_bool_true | | |]; split; done.
Qed.

Lemma keepLink_true (sites : list Site) (l : SimilarityResult) :
  keepLink (JSSet.new_Set (map id sites)) l = true
  ↔ numAbove (score l) (1 # 5)
    ∧ sourceId l ∈ map id sites ∧ targetId l ∈ map id sites.
Proof.
  unfold keepLink, threshold.
  rewrite !andb_true_iff, num_gt_Fin, !has_true, !elem_of_new_Set. tauto.
Qed.

Lemma keepLink_toLink (nodeIds : list string) (l l' : SimilarityResult) :
  toLink l = toLink l' → keepLink nodeIds l = keepLink nodeIds l'.
Proof. unfold toLink, keepLink. intros [= -> -> ->]. done. Qed.

(** C5. A link is built from a result exactly when the score of the
    result is strictly above 0.2 and both its identifiers name a current
    node.  In particular a result of score 0.25 between current nodes
    gives a link, a result of score 0.1 gives none, and a result naming
    an absent site gives none whatever its score.  The builder is a
    total function: dropping a result raises nothing. *)
Theorem linkData_spec (sites : list Site) (links : list SimilarityResult) :
  (∀ l, l ∈ links →
     (toLink l ∈ linkData sites links
      ↔ numAbove (score l) (1 # 5)
        ∧ sourceId l ∈ map id sites ∧ targetId l ∈ map id sites))
  ∧ (∀ k, k ∈ linkData sites links → ∃ l, l ∈ links ∧ k = toLink l)
  ∧ (∀ l q, l ∈ links → score l = Fin q → (q == 25 # 100)%Q →
       sourceId l ∈ map id sites → targetId l ∈ map id sites →
       toLink l ∈ linkData sites links)
  ∧ (∀ l q, score l = Fin q → (q == 1 # 10)%Q →
       toLink l ∉ linkData sites links)
  ∧ (∀ l, sourceId l ∉ map id sites ∨ targetId l ∉ map id sites →
       toLink l ∉ linkData sites links).
Proof.
  assert (∀ l, toLink l ∈ linkData sites links →
               numAbove (score l) (1 # 5)
               ∧ sourceId l ∈ map id sites ∧ targetId l ∈ map id sites) as Hout.
  { intros l Hl. unfold linkData in Hl. cbv zeta in Hl.
    apply list_elem_of_fmap in Hl as (l' & Heq & Hl').
    apply list_elem_of_In, List.filter_In in Hl' as [_ Hkeep].
    rewrite <- (keepLink_toLink _ _ _ Heq) in Hkeep.
    by apply keepLink_true. }
  assert (∀ l, l ∈ links →
               numAbove (score l) (1 # 5)
               ∧ sourceId l ∈ map id sites ∧ targetId l ∈ map id sites →
               toLink l ∈ linkData sites links) as Hin.
  { intros l Hl Hkeep. unfold linkData. cbv zeta.
    apply list_elem_of_fmap. exists l. split; [done|].
    apply list_elem_of_In, List.filter_In. split; [by apply list_elem_of_In|].
    by apply keepLink_true. }
  split_and!.
  - intros l Hl. split; [apply Hout | by apply Hin].
  - intros k Hk. unfold linkData in Hk. cbv zeta in Hk.
    apply list_elem_of_fmap in Hk as (l & -> & Hl).
    apply list_elem_of_In, List.filter_In in Hl as [Hl _].
    exists l. split; [by apply list_elem_of_In | done].
  - intros l q Hl Hs Hq H1 H2. apply Hin; [done|]. rewrite Hs.
    split; [|done]. simpl. rewrite Hq. reflexivity.
  - intros l q Hs Hq Hl. apply Hout in Hl as [Habove _].
    rewrite Hs in Habove. simpl in Habove. rewrite Hq in Habove.
    discriminate Habove.
  - intros l Habsent Hl. apply Hout in Hl as (_ & H1 & H2).
    destruct Habsent; done.
Qed.

Lemma linkData_spec_witness :
  (toLink (mkResult adichanallur keezhadi)
     ∈ linkData TN_SITES (computeSimilarity TN_SITES))
  ∧ (toLink (mkSimilarityResult "adichanallur" "keezhadi" (Fin (1 # 10)) "" [])
     ∉ linkData TN_SITES (computeSimilarity TN_SITES))
  ∧ (toLink (mkSimilarityResult "adichanallur" "removed-site" (Fin 1) "" [])
     ∉ linkData TN_SITES
         [mkSimilarityResult "adichanallur" "removed-site" (Fin 1) "" []]).
Proof.
  split_and!.
  - apply (proj1 (proj2 (proj2 (linkData_spec TN_SITES (computeSimilarity TN_SITES))))
             (mkResult adichanallur keezhadi) (1 # 4)).
    + vm_compute. left.
    + vm_compute. reflexivity.
    + reflexivity.
    + vm_compute. left.
    + vm_compute. right. left.
  - apply (proj1 (proj2 (proj2 (proj2 (linkData_spec TN_SITES (computeSimilarity TN_SITES)))))
             (mkSimilarityResult "adichanallur" "keezhadi" (Fin (1 # 10)) "" [])
             (1 # 10)); reflexivity.
  - apply (linkData_spec TN_SITES
             [mkSimilarityResult "adichanallur" "removed-site" (Fin 1) "" []]).
    right. apply (bool_decide_unpack _). vm_compute. exact I.
Defined.

(** ** Fuzzy chronology mapping *)

Lemma prefix_spec (k t : string) :
  String.prefix k t = true ↔ ∃ post, t = k ++ post.
Proof.
  revert t. induction k as [|c k IH]; intros t; destruct t as [|d t]; simpl.
  - split; [intros _; by exists "" | done].
  - split; [intros _; by exists (String d t) | done].
  - split; [done | intros [post [=]]].
  - destruct (Ascii.ascii_dec c d) as [->|Hne].
    + rewrite IH. split; intros [post Hp]; exists post; [by rewrite Hp|].
      by injection Hp.
    + split; [done|]. intros [post [= ? _]]. congruence.
Qed.

Lemma includes_spec (text k : string) :
  JSString.includes text k = true ↔ occursIn k text.
Proof.
  unfold occursIn. induction text as [|c text IH]; cbn [JSString.includes].
  - destruct (String.prefix k "") eqn:E.
    + split; [intros _|done]. apply prefix_spec in E as [post E].
      exists "", post. done.
    + split; [done|]. intros (pre & post & Heq).
      destruct pre; [|done]. simpl in Heq.
      assert (String.prefix k "" = true) as E'
        by (apply prefix_spec; eauto). congruence.
  - destruct (String.prefix k (String c text)) eqn:E.
    + split; [intros _|done]. apply prefix_spec in E as [post E].
      exists "", post. done.
    + rewrite IH. split.
      * intros (pre & post & ->). exists (String c pre), post. done.
      * intros (pre & post & Heq). destruct pre as [|d pre].
        -- simpl in Heq.
           assert (String.prefix k (String c text) = true) as E'
             by (apply prefix_spec; eauto). congruence.
        -- injection Heq as _ ->. eauto.
Qed.

Lemma groupMatches_true (text : string) (g : Chronology * list string) :
  groupMatches text g = true ↔ groupHits text g.
Proof.
  unfold groupMatches, groupHits. rewrite existsb_exists.
  split; intros (k & Hk & Ho); exists k.
  - split; [by apply list_elem_of_In | by apply includes_spec].
  - split; [by apply list_elem_of_In | by apply includes_spec].
Qed.

Lemma groupMatches_false (text : string) (g : Chronology * list string) :
  groupMatches text g = false ↔ ¬ groupHits text g.
Proof.
  rewrite <- groupMatches_true. destruct (groupMatches text g); split; done.
Qed.

Lemma strip_non_alnum_chars (s : string) :
  allChars JSString.is_lower_alnum (JSString.strip_non_alnum s).
Proof.
  unfold allChars. induction s as [|c s IH]; simpl; [constructor|].
  destruct (JSString.is_lower_alnum c) eqn:E; [|done].
  simpl. by constructor.
Qed.

(** Stripping keeps a string made of lowercase alphanumerics as it is. *)
Lemma strip_non_alnum_id (s : string) :
  allChars JSString.is_lower_alnum s → JSString.strip_non_alnum s = s.
Proof.
  unfold allChars. induction s as [|c s IH]; simpl; [done|].
  intros [-> Hs]%Forall_cons. by rewrite IH.
Qed.

(** C6. The mapper works on the input stripped to lowercase
    alphanumerics; it returns the category of the first keyword group,
    in the order of the list, one of whose keywords occurs in the
    stripped text, and [UNKNOWN] when no group has such a keyword.
    "Megalithic Age burial" maps to [MEGALITHIC] and "completely
    unrelated text" maps to [UNKNOWN]. *)
Theorem mapChronologyFuzzy_spec :
  (∀ raw : string,
     allChars JSString.is_lower_alnum (normalizeLabel raw)
     ∧ (∀ i g,
          mappingGroups !! i = Some g →
          groupHits (normalizeLabel raw) g →
          (∀ j g', (j < i)%nat → mappingGroups !! j = Some g' →
                   ¬ groupHits (normalizeLabel raw) g') →
          mapChronologyFuzzy raw = g.1)
     ∧ ((∀ g, g ∈ mappingGroups → ¬ groupHits (normalizeLabel raw) g) →
        mapChronologyFuzzy raw = UNKNOWN))
  ∧ normalizeLabel "Megalithic Age burial" = "megalithicageburial"
  ∧ mapChronologyFuzzy "Megalithic Age burial" = MEGALITHIC
  ∧ mapChronologyFuzzy "completely unrelated text" = UNKNOWN.
Proof.
  split_and!; [|vm_compute; reflexivity..].
  intros raw. split_and!.
  - apply strip_non_alnum_chars.
  - intros i g Hi Hg Hfirst. unfold mapChronologyFuzzy. cbv zeta.
    rewrite <- (take_drop_middle _ _ _ Hi).
    rewrite find_first; [done | | by apply groupMatches_true].
    intros g' Hg'. apply groupMatches_false.
    apply list_elem_of_lookup in Hg' as [j Hj].
    pose proof (lookup_lt_Some _ _ _ Hj) as Hlt.
    rewrite length_take in Hlt.
    rewrite lookup_take_lt in Hj by lia.
    apply (Hfirst j g'); [lia | done].
  - intros Hnone. unfold mapChronologyFuzzy. cbv zeta.
    rewrite find_none_all; [done|].
    intros g Hg. by apply groupMatches_false, Hnone.
Qed.

Lemma mapChronologyFuzzy_spec_witness :
  mapChronologyFuzzy "Sangam period, Chola coins" = SANGAM.
Proof.
  apply (proj1 (proj2 (proj1 mapChronologyFuzzy_spec "Sangam period, Chola coins"))
           1%nat
           (SANGAM, ["sangam"; "sangamage"; "sangamperiod"; "earlysangam";
                     "earlytamil"; "cheran"; "cholan"; "pandiyan"; "tamizh"])).
  - reflexivity.
  - apply groupMatches_true. vm_compute. reflexivity.
  - intros j g' Hj Hg'. apply groupMatches_false.
    destruct j as [|j]; [|lia].
    injection Hg' as <-. vm_compute. reflexivity.
Defined.

(** ** Chronology of an ingested site *)

(** The categories the raw labels map to. *)
Lemma uniqueChronology_cases (mapped : list Chronology) :
  let unique := JSSet.new_Set mapped in
  (length unique ≤ 1 ∧ uniqueChronology mapped = unique)%nat
  ∨ ((1 < length unique)%nat
     ∧ uniqueChronology mapped = filter (fun c => c ≠ UNKNOWN) unique
     ∧ uniqueChronology mapped ≠ []).
Proof.
  intros unique. unfold uniqueChronology. fold unique.
  destruct (Nat.ltb_spec 1 (length unique)) as [Hlt|Hle]; [right | left; done].
  split_and!; [done..|].
  pose proof (NoDup_new_Set mapped) as Hnd. fold unique in Hnd.
  destruct unique as [|a [|b rest]]; simpl in Hlt; [lia..|].
  apply NoDup_cons in Hnd as [Hab _].
  assert (a ≠ b) as Hne by (intros ->; apply Hab; left).
  destruct (decide (a = UNKNOWN)) as [->|Ha].
  - intros E.
    assert (b ∈ filter (fun c => c ≠ UNKNOWN) (UNKNOWN :: b :: rest)) as Hb.
    { apply list_elem_of_filter. split; [congruence | right; left]. }
    rewrite E in Hb. by apply elem_of_nil in Hb.
  - intros E.
    assert (a ∈ filter (fun c => c ≠ UNKNOWN) (a :: b :: rest)) as Hb.
    { apply list_elem_of_filter. split; [done | left]. }
    rewrite E in Hb. by apply elem_of_nil in Hb.
Qed.

(** C7. For every extraction result the chronology of the new site is
    a nonempty list without repetition; [UNKNOWN] belongs to it only
    when it is its only element, and never when the labels map to more
    than one category; the list is [[UNKNOWN]] when no label was mapped.
    Apart from [UNKNOWN] it holds exactly the categories the labels map
    to.  Labels mapping to MEGALITHIC and UNKNOWN give [[MEGALITHIC]]. *)
Theorem siteChronology_spec :
  (∀ extracted : option (list string),
     let mapped := map mapChronologyFuzzy (default [] extracted) in
     let c := siteChronology extracted in
     c ≠ []
     ∧ NoDup c
     ∧ (UNKNOWN ∈ c → c = [UNKNOWN])
     ∧ ((1 < length (JSSet.new_Set mapped))%nat → UNKNOWN ∉ c)
     ∧ (JSSet.new_Set mapped = [] → c = [UNKNOWN])
     ∧ (∀ k, k ≠ UNKNOWN → (k ∈ c ↔ k ∈ mapped)))
  ∧ siteChronology (Some ["Megalithic Age burial"; "completely unrelated text"])
    = [MEGALITHIC]
  ∧ siteChronology (Some []) = [UNKNOWN]
  ∧ siteChronology None = [UNKNOWN].
Proof.
  split_and!; [|vm_compute; reflexivity..].
  intros extracted mapped c. unfold c, siteChronology. fold mapped.
  cbv zeta.
  pose proof (NoDup_new_Set mapped) as Hnd.
  destruct (uniqueChronology_cases mapped) as [[Hle Hu]|(Hlt & Hu & Hne)].
  - rewrite Hu. destruct (JSSet.new_Set mapped) as [|a [|b rest]] eqn:E;
      simpl in Hle; [| |lia].
    + simpl. split_and!; try done.
      * apply NoDup_singleton.
      * intros ?. lia.
      * intros k Hk. rewrite list_elem_of_singleton.
        rewrite <- (elem_of_new_Set mapped), E, elem_of_nil. tauto.
    + simpl. split_and!; try done.
      * intros ->%list_elem_of_singleton. done.
      * intros ?. lia.
      * intros k Hk. by rewrite <- (elem_of_new_Set mapped), E.
  - assert ((0 <? length (uniqueChronology mapped))%nat = true) as ->.
    { apply Nat.ltb_lt. destruct (uniqueChronology mapped); [done | simpl; lia]. }
    assert (UNKNOWN ∉ uniqueChronology mapped) as Hno.
    { rewrite Hu. intros [? _]%list_elem_of_filter. done. }
    split_and!; try done.
    + rewrite Hu. by apply NoDup_filter.
    + intros E. rewrite E in Hlt. simpl in Hlt. lia.
    + intros k Hk. rewrite Hu, list_elem_of_filter, elem_of_new_Set. tauto.
Qed.

Lemma siteChronology_spec_witness :
  siteChronology (Some ["unknown thing"; "urn burial"; "Sangam"])
  ≠ [UNKNOWN].
Proof.
  intros E.
  destruct (proj1 siteChronology_spec
              (Some ["unknown thing"; "urn burial"; "Sangam"]))
    as (_ & _ & _ & Hno & _).
  apply Hno.
  - vm_compute. lia.
  - rewrite E. left.
Defined.

(** ** Identifier derivation *)

Local Open Scope Z_scope.

Lemma to_int32_range (z : Z) : - 2 ^ 31 <= to_int32 z < 2 ^ 31.
Proof.
  unfold to_int32.
  pose proof (Z.mod_pos_bound (z + 2 ^ 31) (2 ^ 32) ltac:(lia)). lia.
Qed.

Lemma to_int32_idem_l (a b : Z) : to_int32 (to_int32 a + b) = to_int32 (a + b).
Proof.
  unfold to_int32. f_equal.
  replace ((a + 2 ^ 31) mod 2 ^ 32 - 2 ^ 31 + b + 2 ^ 31)
    with ((a + 2 ^ 31) mod 2 ^ 32 + b) by lia.
  rewrite Zplus_mod_idemp_l. f_equal. lia.
Qed.

(** One step of the loop is [31 * hash + char], wrapped to 32 bits. *)
Lemma hashStep_rolling (hash char : Z) :
  hashStep hash char = to_int32 (31 * hash + char).
Proof.
  unfold hashStep, shl32. rewrite Z.shiftl_mul_pow2 by lia.
  replace (to_int32 (hash * 2 ^ 5) - hash + char)
    with (to_int32 (hash * 2 ^ 5) + (- hash + char)) by lia.
  rewrite to_int32_idem_l. f_equal. lia.
Qed.

Lemma charCodes_app (s t : string) :
  JSString.charCodes (s ++ t)
  = (JSString.charCodes s ++ JSString.charCodes t)%list.
Proof.
  unfold JSString.charCodes. rewrite <- map_app. f_equal.
  induction s as [|c s IH]; simpl; [done | by rewrite IH].
Qed.

Lemma hashCode_range (str : string) : - 2 ^ 31 <= hashCode str < 2 ^ 31.
Proof.
  unfold hashCode.
  assert (∀ l h, - 2 ^ 31 <= h < 2 ^ 31 →
                 - 2 ^ 31 <= fold_left hashStep l h < 2 ^ 31) as Hgen.
  { induction l as [|c l IH]; intros h Hh; simpl; [done|].
    apply IH. unfold hashStep. apply to_int32_range. }
  apply Hgen. lia.
Qed.

Lemma hashCode_snoc (str : string) (c : ascii) :
  hashCode (str ++ String c "") = to_int32 (31 * hashCode str + codeOf c).
Proof.
  unfold hashCode. rewrite charCodes_app, fold_left_app. simpl.
  apply hashStep_rolling.
Qed.

Lemma digitChar_spec (d : Z) :
  0 <= d < 36 → isDigit36 (digitChar d) = true ∧ digitVal (digitChar d) = d.
Proof.
  intros Hd. rewrite <- (Z2Nat.id d) by lia.
  assert (Z.to_nat d < 36)%nat as Hk by lia.
  generalize dependent (Z.to_nat d). intros k Hk.
  do 36 (destruct k as [|k]; [vm_compute; done|]). lia.
Qed.

Section digits.
Variable radix : Z.
Hypothesis radix_range : 2 <= radix <= 36.

Lemma digits_go_spec (fuel : nat) (n : Z) (acc : list ascii) :
  0 <= n < 2 ^ Z.of_nat fuel → fuel ≠ 0%nat →
  ∃ ds, digits_go fuel radix n acc = (ds ++ acc)%list
        ∧ ds ≠ []
        ∧ Forall (fun c => isDigit36 c = true) ds
        ∧ ∀ a, fold_left (fun a c => a * radix + digitVal c) ds a
               = a * radix ^ Z.of_nat (length ds) + n.
Proof.
  revert n acc. induction fuel as [|fuel IH]; intros n acc Hn Hfuel; [done|].
  cbn [digits_go].
  pose proof (Z.mod_pos_bound n radix ltac:(lia)) as Hmod.
  destruct (digitChar_spec (n mod radix) ltac:(lia)) as [Hd36 Hdval].
  pose proof (Z.div_mod n radix ltac:(lia)) as Hdm.
  destruct (Z.eqb_spec (n / radix) 0) as [Hz|Hnz].
  - exists [digitChar (n mod radix)]. split_and!; [done | done | |].
    + by constructor.
    + intros a. simpl. rewrite Hdval. nia.
  - assert (0 < n / radix) as Hpos.
    { pose proof (Z.div_pos n radix ltac:(lia) ltac:(lia)). lia. }
    assert (n / radix < 2 ^ Z.of_nat fuel) as Hlt.
    { apply Z.div_lt_upper_bound; [lia|].
      rewrite Nat2Z.inj_succ, Z.pow_succ_r in Hn by lia. nia. }
    assert (fuel ≠ 0%nat) as Hf.
    { intros ->. simpl in Hlt. lia. }
    destruct (IH (n / radix) (digitChar (n mod radix) :: acc)
                ltac:(lia) Hf) as (ds & Hgo & _ & Hall & Hval).
    exists (ds ++ [digitChar (n mod radix)])%list. split_and!.
    + by rewrite Hgo, <- app_assoc.
    + by destruct ds.
    + apply Forall_app. split; [done | by constructor].
    + intros a. rewrite fold_left_app, Hval. simpl. rewrite Hdval.
      rewrite length_app. simpl.
      rewrite Nat2Z.inj_add, Z.pow_add_r by lia.
      change (Z.of_nat 1) with 1. rewrite Z.pow_1_r. nia.
Qed.

(** The digits of a non-negative integer: a nonempty run of base-36
    digit characters whose value is the integer. *)
Lemma digits_spec (n : Z) :
  0 <= n →
  digits radix n ≠ []
  ∧ Forall (fun c => isDigit36 c = true) (digits radix n)
  ∧ parseDigits radix (digits radix n) = n.
Proof.
  intros Hn. unfold digits, parseDigits.
  destruct (digits_go_spec (S (Z.to_nat (Z.log2 n))) n []) as
    (ds & Hgo & Hne & Hall & Hval); [|done|].
  - split; [done|]. rewrite Nat2Z.inj_succ, Z2Nat.id by apply Z.log2_nonneg.
    destruct (Z.eq_dec n 0) as [->|Hnz]; [simpl; lia|].
    apply Z.log2_spec. lia.
  - rewrite app_nil_r in Hgo. rewrite Hgo. split_and!; [done..|].
    rewrite Hval. lia.
Qed.

End digits.

Local Close Scope Z_scope.

Local Open Scope Z_scope.

Lemma to_int32_mod (z : Z) : to_int32 z mod 2 ^ 32 = z mod 2 ^ 32.
Proof.
  unfold to_int32. rewrite Zminus_mod_idemp_l. f_equal. lia.
Qed.

(** The accumulator agrees with the unbounded accumulation modulo
    [2 ^ 32]. *)
Lemma hashCode_polyHash (str : string) :
  hashCode str mod 2 ^ 32 = polyHash str mod 2 ^ 32.
Proof.
  unfold hashCode, polyHash, JSString.charCodes.
  assert (∀ l h p, h mod 2 ^ 32 = p mod 2 ^ 32 →
            fold_left hashStep (map (fun c => Z.of_nat (nat_of_ascii c)) l) h
              mod 2 ^ 32
            = fold_left (fun h c => 31 * h + codeOf c) l p mod 2 ^ 32) as Hgen.
  { induction l as [|c l IH]; intros h p Hhp; simpl; [done|].
    apply IH. rewrite hashStep_rolling, to_int32_mod. unfold codeOf.
    rewrite Zplus_mod, Zmult_mod, Hhp, <- Zmult_mod, <- Zplus_mod. done. }
  by apply Hgen.
Qed.

Lemma digits_go_canonical (radix : Z) (fuel : nat) (n : Z) (acc : list ascii) :
  2 <= radix <= 36 → 0 <= n < 2 ^ Z.of_nat fuel → fuel ≠ 0%nat →
  ∃ ds, digits_go fuel radix n acc = (ds ++ acc)%list
        ∧ Forall (fun c => 0 <= digitVal c < radix) ds
        ∧ (length ds = 1%nat ∨ radix ^ (Z.of_nat (length ds) - 1) <= n).
Proof.
  intros Hr. revert n acc.
  induction fuel as [|fuel IH]; intros n acc Hn Hfuel; [done|].
  cbn [digits_go].
  pose proof (Z.mod_pos_bound n radix ltac:(lia)) as Hmod.
  destruct (digitChar_spec (n mod radix) ltac:(lia)) as [_ Hdval].
  pose proof (Z.div_mod n radix ltac:(lia)) as Hdm.
  destruct (Z.eqb_spec (n / radix) 0) as [Hz|Hnz].
  - exists [digitChar (n mod radix)]. split_and!; [done | | by left].
    constructor; [|constructor]. rewrite Hdval. lia.
  - assert (0 < n / radix) as Hpos.
    { pose proof (Z.div_pos n radix ltac:(lia) ltac:(lia)). lia. }
    assert (n / radix < 2 ^ Z.of_nat fuel) as Hlt.
    { apply Z.div_lt_upper_bound; [lia|].
      rewrite Nat2Z.inj_succ, Z.pow_succ_r in Hn by lia. nia. }
    assert (fuel ≠ 0%nat) as Hf.
    { intros ->. simpl in Hlt. lia. }
    destruct (IH (n / radix) (digitChar (n mod radix) :: acc)
                ltac:(lia) Hf) as (ds & Hgo & Hall & Hcan).
    exists (ds ++ [digitChar (n mod radix)])%list. split_and!.
    + by rewrite Hgo, <- app_assoc.
    + apply Forall_app. split; [done|].
      constructor; [|constructor]. rewrite Hdval. lia.
    + right. rewrite length_app. simpl.
      replace (Z.of_nat (length ds + 1) - 1) with (Z.of_nat (length ds)) by lia.
      destruct Hcan as [Hone|Hge].
      * rewrite Hone. change (Z.of_nat 1) with 1. rewrite Z.pow_1_r. nia.
      * destruct (length ds) as [|k]; [simpl; nia|].
        replace (Z.of_nat (S k) - 1) with (Z.of_nat k) in Hge by lia.
        rewrite Nat2Z.inj_succ, Z.pow_succ_r by lia.
        assert (radix * radix ^ Z.of_nat k <= radix * (n / radix))
          by (apply Z.mul_le_mono_nonneg_l; lia).
        lia.
Qed.

(** The digits produced for a non-negative integer are its canonical
    rendering. *)
Lemma digits_canonical (radix n : Z) :
  2 <= radix <= 36 → 0 <= n → canonicalDigits radix n (digits radix n).
Proof.
  intros Hr Hn.
  destruct (digits_spec radix Hr n Hn) as (Hne & Hall & Hval).
  assert (0 <= n < 2 ^ Z.of_nat (S (Z.to_nat (Z.log2 n)))) as Hfuel.
  { split; [done|]. rewrite Nat2Z.inj_succ, Z2Nat.id by apply Z.log2_nonneg.
    destruct (Z.eq_dec n 0) as [->|Hnz]; [simpl; lia|].
    apply Z.log2_spec. lia. }
  destruct (digits_go_canonical radix (S (Z.to_nat (Z.log2 n))) n [] Hr Hfuel)
    as (ds & Hgo & Hlt & Hcan); [done|].
  rewrite app_nil_r in Hgo. fold (digits radix n) in Hgo. subst ds.
  split_and!; [done | | done | done].
  rewrite Forall_forall in Hall, Hlt. apply Forall_forall. intros c Hc.
  split; [by apply Hall | by apply Hlt].
Qed.

Lemma digits_decimal (n : Z) :
  0 <= n → Forall (fun c => JSString.is_digit c = true) (digits 10 n).
Proof.
  intros Hn.
  destruct (digits_canonical 10 n ltac:(lia) Hn) as (_ & Hall & _).
  eapply Forall_impl; [exact Hall|]. intros c [H36 Hval]. simpl in *.
  unfold isDigit36 in H36. unfold digitVal in Hval.
  destruct (JSString.is_digit c); [done|]. simpl in H36.
  unfold JSString.is_lower in H36. cbv zeta in H36.
  apply andb_true_iff in H36 as [Hlo _]. apply Nat.leb_le in Hlo. lia.
Qed.

Local Close Scope Z_scope.

(** C8. The identifier is a function of the normalized name, the
    normalized district and the salt: equal inputs give equal
    identifiers.  It is the two fields and a hash suffix joined by
    dashes.  The hash is the signed 32-bit integer congruent modulo
    [2 ^ 32] to the accumulation over the character codes of the salted
    input (start from 0, replace [hash] by [31 * hash + code] for each
    character in turn); the salted input is the two fields and the
    decimal rendering of the salt joined by dashes.  The suffix is the
    canonical base-36 rendering of the absolute value of the hash: a
    nonempty run of digits [0-9a-z] without sign and without leading
    zero. *)
Theorem siteId_spec :
  (∀ (normalizedName normalizedDistrict : string) (now : Z),
     let input :=
       normalizedName ++ "-" ++ normalizedDistrict ++ "-" ++ toStringRadix 10 now in
     let hash := hashCode input in
     let suffix := digits 36 (Z.abs hash) in
     siteId normalizedName normalizedDistrict now
     = normalizedName ++ "-" ++ normalizedDistrict ++ "-" ++ string_of_list_ascii suffix
     ∧ (- 2 ^ 31 <= hash < 2 ^ 31)%Z
     ∧ (hash mod 2 ^ 32 = polyHash input mod 2 ^ 32)%Z
     ∧ suffix ≠ []
     ∧ Forall (fun c => isDigit36 c = true) suffix
     ∧ parseDigits 36 suffix = Z.abs hash
     ∧ canonicalDigits 36 (Z.abs hash) suffix)
  ∧ (∀ now : Z, (0 <= now)%Z →
       toStringRadix 10 now = string_of_list_ascii (digits 10 now)
       ∧ Forall (fun c => JSString.is_digit c = true) (digits 10 now)
       ∧ canonicalDigits 10 now (digits 10 now))
  ∧ hashCode "" = 0%Z
  ∧ (∀ (str : string) (c : ascii),
       hashCode (str ++ String c "") = to_int32 (31 * hashCode str + codeOf c))
  ∧ (∀ n1 d1 s1 n2 d2 s2,
       n1 = n2 → d1 = d2 → s1 = s2 → siteId n1 d1 s1 = siteId n2 d2 s2).
Proof.
  split_and!.
  - intros nm ds now input hash suffix.
    pose proof (digits_spec 36 ltac:(lia) (Z.abs hash) (Z.abs_nonneg _))
      as (Hne & Hall & Hval).
    pose proof (digits_canonical 36 (Z.abs hash) ltac:(lia) (Z.abs_nonneg _))
      as Hcan.
    split; [|split; [apply hashCode_range|
             split; [apply hashCode_polyHash | done]]].
    unfold siteId, stringToHash. cbv zeta.
    change (hashCode _) with hash.
    generalize dependent hash. intros hash suffix _ _ _ _.
    unfold toStringRadix.
    destruct (Z.ltb_spec (Z.abs hash) 0) as [Hneg|_]; [lia | done].
  - intros now Hnow. split_and!.
    + unfold toStringRadix.
      destruct (Z.ltb_spec now 0) as [Hneg|_]; [lia | done].
    + by apply digits_decimal.
    + apply digits_canonical; [lia | done].
  - reflexivity.
  - apply hashCode_snoc.
  - intros n1 d1 s1 n2 d2 s2 -> -> ->. reflexivity.
Qed.

(** The identifier of "new-site" in "erode" at the millisecond
    1700000000000: the hash is read off the congruence and the range,
    and the suffix is its rendering; one millisecond later the
    identifier is another one. *)
Lemma siteId_spec_witness :
  siteId "new-site" "erode" 1700000000000 = "new-site-erode-4h3s7t"
  ∧ hashCode "new-site-erode-1700000000000" = (-270594713)%Z
  ∧ polyHash "new-site-erode-1700000000000"
    = 2095635360075184652098671148013237772946791%Z
  ∧ siteId "new-site" "erode" (17 * 10 ^ 11) = siteId "new-site" "erode" 1700000000000
  ∧ siteId "new-site" "erode" 1700000000001 = "new-site-erode-4h3s7s".
Proof.
  destruct (proj1 siteId_spec "new-site" "erode" 1700000000000%Z)
    as (Hid & Hrange & Hcong & _).
  destruct (proj1 (proj2 siteId_spec) 1700000000000%Z ltac:(lia)) as (Hsalt & _).
  assert (hashCode "new-site-erode-1700000000000" = (-270594713)%Z) as Hhash.
  { rewrite Hsalt in Hrange, Hcong.
    change ("new-site" ++ "-" ++ "erode" ++ "-"
            ++ string_of_list_ascii (digits 10 1700000000000))
      with "new-site-erode-1700000000000" in Hrange, Hcong.
    set (h := hashCode "new-site-erode-1700000000000") in *.
    clearbody h.
    change (polyHash "new-site-erode-1700000000000" mod 2 ^ 32)%Z
      with 4024372583%Z in Hcong.
    change (2 ^ 32)%Z with 4294967296%Z in Hcong.
    change (2 ^ 31)%Z with 2147483648%Z in Hrange.
    pose proof (Z.div_mod h 4294967296 ltac:(lia)) as Hdm.
    rewrite Hcong in Hdm. lia. }
  split_and!.
  - rewrite Hid, Hsalt.
    change ("new-site" ++ "-" ++ "erode" ++ "-"
            ++ string_of_list_ascii (digits 10 1700000000000))
      with "new-site-erode-1700000000000".
    rewrite Hhash. vm_compute. reflexivity.
  - exact Hhash.
  - vm_compute. reflexivity.
  - apply (proj2 (proj2 (proj2 (proj2 siteId_spec)))); reflexivity.
  - vm_compute. reflexivity.
Defined.

(** ** Drag start *)

(** C9 as first stated does not hold.  The value of alpha is not reset
    by a drag start: on a graph that
    has cooled down to alpha = 0.0005, the first drag gesture leaves
    alpha at 0.0005, which is not the starting value 1. *)
Lemma dragstarted_keeps_alpha :
  alpha (simulation (dragstarted firstDrag cooledState)) = 1 # 2000
  ∧ ¬ (alpha (simulation (dragstarted firstDrag cooledState)) == initialAlpha)%Q.
Proof. split; [reflexivity | discriminate]. Qed.

(** C9, amended. A drag start pins the dragged node at its own current
    position and leaves every other node as it is; it never changes
    alpha.  When no other gesture is active it sets the alpha target to
    0.3 and restarts the timer, so the simulation runs; otherwise it
    leaves the simulation as it is. *)
Theorem dragstarted_spec (event : DragEvent) (st : GraphState) (n : GraphNode) :
  nodes st !! subject event = Some n →
  let st' := dragstarted event st in
  nodes st' !! subject event
  = Some (mkGraphNode (node_id n) (x n) (y n) (vx n) (vy n) (Some (x n)) (Some (y n)))
  ∧ (∀ i, i ≠ subject event → nodes st' !! i = nodes st !! i)
  ∧ length (nodes st') = length (nodes st)
  ∧ alpha (simulation st') = alpha (simulation st)
  ∧ (active event = 0%nat →
     alphaTarget (simulation st') = 3 # 10 ∧ running (simulation st') = true)
  ∧ (active event ≠ 0%nat → simulation st' = simulation st).
Proof.
  intros Hn st'. unfold st', dragstarted. cbn [nodes simulation]. split_and!.
  - rewrite list_lookup_alter_eq, Hn. reflexivity.
  - intros i Hi. by rewrite list_lookup_alter_ne.
  - apply length_alter.
  - destruct (active event =? 0)%nat; reflexivity.
  - intros ->. split; reflexivity.
  - intros Hact. apply Nat.eqb_neq in Hact as ->. reflexivity.
Qed.

Lemma dragstarted_spec_witness :
  nodes (dragstarted firstDrag cooledState) !! 0%nat
  = Some (mkGraphNode "adichanallur" 300 250 0 0 (Some 300%Q) (Some 250%Q))
  ∧ alphaTarget (simulation (dragstarted firstDrag cooledState)) = 3 # 10
  ∧ running (simulation (dragstarted firstDrag cooledState)) = true.
Proof.
  destruct (dragstarted_spec firstDrag cooledState
              (mkGraphNode "adichanallur" 300 250 0 0 None None)
              ltac:(reflexivity))
    as (Hpin & _ & _ & _ & Hrun & _).
  split; [exact Hpin | apply Hrun; reflexivity].
Defined.

(* ================================================================== *)
(** * Further properties *)
(* ================================================================== *)

(** ** The similarity matrix on recomputed results *)

Lemma calculateSim_swap (a b : Site) : calculateSim a b = calculateSim b a.
Proof.
  rewrite !calculateSim_sets.
  rewrite (comm_L (∪) (materialSet b) (materialSet a)).
  by rewrite (comm_L (∩) (materialSet b) (materialSet a)).
Qed.

Lemma calculateSim_Fin (a b : Site) :
  ∃ q, calculateSim a b = Fin q ∧ (0 <= q)%Q ∧ (q <= 1)%Q.
Proof.
  rewrite calculateSim_sets.
  destruct (Nat.eqb_spec (size (materialSet a ∪ materialSet b)) 0) as [E|E].
  - exists 0%Q. split; [done|]. split; discriminate.
  - apply size_div_bounds; [|done].
    apply subseteq_size. intros z Hz.
    apply elem_of_intersection in Hz as [Hz _].
    apply elem_of_union. by left.
Qed.

(** Two sites of a working set with unique identifiers are the same
    site when they carry the same identifier. *)
Lemma site_of_id_unique (sites : list Site) (a b : Site) :
  NoDup (map id sites) → a ∈ sites → b ∈ sites → id a = id b → a = b.
Proof.
  intros Hnd Ha Hb E.
  apply list_elem_of_lookup in Ha as [i Hi], Hb as [j Hj].
  assert (i = j) as ->; [|congruence].
  apply (NoDup_lookup (map id sites) i j (id a) Hnd).
  - by rewrite list_lookup_fmap, Hi.
  - rewrite list_lookup_fmap, Hj. simpl. by rewrite E.
Qed.

Lemma computeSimilarity_elem (sites : list Site) (r : SimilarityResult) :
  r ∈ computeSimilarity sites →
  ∃ a b, a ∈ sites ∧ b ∈ sites ∧ r = mkResult a b.
Proof.
  induction sites as [|a rest IH]; [by intros ?%elem_of_nil|].
  rewrite computeSimilarity_cons, elem_of_app. intros [Hr|Hr].
  - apply list_elem_of_fmap in Hr as (b & -> & Hb).
    exists a, b. split_and!; [left | by right | done].
  - destruct (IH Hr) as (a' & b' & Ha' & Hb' & ->).
    exists a', b'. split_and!; [by right | by right | done].
Qed.

Lemma find_elem {A} (p : A → bool) (l : list A) (r : A) :
  List.find p l = Some r → r ∈ l ∧ p r = true.
Proof.
  intros H. apply List.find_some in H as [H1 H2].
  split; [by apply list_elem_of_In | done].
Qed.

Lemma find_none_elem {A} (p : A → bool) (l : list A) :
  List.find p l = None → ∀ r, r ∈ l → p r = false.
Proof.
  intros H r Hr. apply (List.find_none p l H). by apply list_elem_of_In.
Qed.

(** X1. The matrix lookup does not depend on the order of the two
    identifiers, whatever the results are. *)
Theorem getScore_symmetric (results : list SimilarityResult) (id1 id2 : string) :
  getScore results id1 id2 = getScore results id2 id1.
Proof.
  unfold getScore. rewrite (String.eqb_sym id2 id1).
  destruct (String.eqb id1 id2); [done|].
  assert (List.find (matchesPair id1 id2) results
          = List.find (matchesPair id2 id1) results) as ->; [|done].
  induction results as [|r l IH]; simpl; [done|].
  rewrite (matchesPair_comm id1 id2 r), IH. done.
Qed.

(** X2. On the results recomputed from a working set with unique
    identifiers, the lookup for two distinct sites returns their
    similarity score, in whatever order the two are given. *)
Theorem getScore_computeSimilarity (sites : list Site) (a b : Site) :
  NoDup (map id sites) → a ∈ sites → b ∈ sites → a ≠ b →
  getScore (computeSimilarity sites) (id a) (id b) = calculateSim a b.
Proof.
  intros Hnd Ha Hb Hab.
  assert (id a ≠ id b) as Hid
    by (intros E; apply Hab; by apply (site_of_id_unique sites)).
  unfold getScore. apply String.eqb_neq in Hid as Hid'. rewrite Hid'.
  destruct (List.find (matchesPair (id a) (id b)) (computeSimilarity sites))
    as [r|] eqn:Hfind.
  - apply find_elem in Hfind as [Hr Hm].
    apply computeSimilarity_elem in Hr as (a' & b' & Ha' & Hb' & ->).
    apply matchesPair_true in Hm as [[E1 E2]|[E1 E2]]; simpl in E1, E2.
    + rewrite (site_of_id_unique sites a' a), (site_of_id_unique sites b' b);
        done.
    + rewrite (site_of_id_unique sites a' b), (site_of_id_unique sites b' a);
        [|done..]. simpl. apply calculateSim_swap.
  - pose proof (pairCount_computeSimilarity sites (id a) (id b) Hnd) as Hone.
    rewrite pairCount_none in Hone.
    + discriminate Hone; try (apply list_elem_of_fmap; eauto); done.
    + by apply find_none_elem.
Qed.

Lemma getScore_computeSimilarity_witness :
  getScore (computeSimilarity TN_SITES) (id porunthal) (id keezhadi)
  = calculateSim porunthal keezhadi.
Proof.
  apply getScore_computeSimilarity.
  - apply (bool_decide_unpack _). vm_compute. exact I.
  - do 4 right. left.
  - right. left.
  - discriminate.
Defined.

(** X3. On recomputed results every cell of the matrix, for any two
    identifiers at all, holds a finite number between 0 and 1. *)
Theorem getScore_range (sites : list Site) (id1 id2 : string) :
  ∃ q, getScore (computeSimilarity sites) id1 id2 = Fin q
       ∧ (0 <= q)%Q ∧ (q <= 1)%Q.
Proof.
  unfold getScore. destruct (String.eqb id1 id2).
  - exists 1%Q. split; [done|]. split; discriminate.
  - destruct (List.find (matchesPair id1 id2) (computeSimilarity sites))
      as [r|] eqn:Hfind.
    + apply find_elem in Hfind as [Hr _].
      apply computeSimilarity_elem in Hr as (a & b & _ & _ & ->).
      apply calculateSim_Fin.
    + exists 0%Q. split; [done|]. split; discriminate.
Qed.

(** ** The graph built from recomputed results *)

(** X4. When the links handed to the graph builder are the results
    recomputed from the same sites, no result is dropped for a missing
    endpoint: the links are exactly the results scoring above 0.2, in
    their order. *)
Theorem linkData_fresh (sites : list Site) :
  linkData sites (computeSimilarity sites)
  = map toLink
      (List.filter (fun l => num_gt (score l) threshold) (computeSimilarity sites)).
Proof.
  unfold linkData. cbv zeta. f_equal.
  apply List.filter_ext_in. intros r Hr.
  apply list_elem_of_In, computeSimilarity_ids in Hr as [Hs Ht].
  unfold keepLink.
  assert (JSSet.has (JSSet.new_Set (map id sites)) (sourceId r) = true) as ->
    by (by apply has_true, elem_of_new_Set).
  assert (JSSet.has (JSSet.new_Set (map id sites)) (targetId r) = true) as ->
    by (by apply has_true, elem_of_new_Set).
  by rewrite !andb_true_r.
Qed.

Lemma computeSimilarity_distinct_ids (sites : list Site) (r : SimilarityResult) :
  NoDup (map id sites) → r ∈ computeSimilarity sites → sourceId r ≠ targetId r.
Proof.
  intros Hnd Hr.
  pose proof (computeSimilarity_resultAt sites) as Hall.
  apply list_elem_of_lookup in Hr as [k Hk].
  destruct (Forall2_lookup_r _ _ _ _ _ Hall Hk) as ([i j] & Hij & (a & b & Hi & Hj & ->)).
  simpl in Hi, Hj.
  assert ((i, j) ∈ pairIndices (length sites)) as Hin
    by (apply list_elem_of_lookup; eauto).
  apply elem_of_pairIndices in Hin as [Hlt _].
  simpl. intros E.
  assert (i = j); [|lia].
  apply (NoDup_lookup (map id sites) i j (id a) Hnd).
  - by rewrite list_lookup_fmap, Hi.
  - rewrite list_lookup_fmap, Hj. simpl. by rewrite E.
Qed.

(** X5. With unique identifiers the graph built from recomputed results
    has no link from a site to itself. *)
Theorem linkData_no_self_link (sites : list Site) (k : GraphLink) :
  NoDup (map id sites) →
  k ∈ linkData sites (computeSimilarity sites) →
  source k ≠ target k.
Proof.
  intros Hnd Hk. unfold linkData in Hk. cbv zeta in Hk.
  apply list_elem_of_fmap in Hk as (r & -> & Hr).
  apply list_elem_of_In, List.filter_In in Hr as [Hr _].
  simpl. apply (computeSimilarity_distinct_ids sites); [done|].
  by apply list_elem_of_In.
Qed.

Lemma linkData_no_self_link_witness :
  source (toLink (mkResult adichanallur keezhadi))
  ≠ target (toLink (mkResult adichanallur keezhadi)).
Proof.
  apply (linkData_no_self_link TN_SITES).
  - apply (bool_decide_unpack _). vm_compute. exact I.
  - vm_compute. left.
Defined.

(** ** Updates of the working set *)

(** X6. Updating a site keeps the list of identifiers as it is, so the
    number of sites and the uniqueness of identifiers are kept, and so
    is the graph built from any stored results; an update for an
    identifier that is not in the working set changes nothing. *)
Theorem handleUpdateSite_ids (updatedSite : Site) (sites : list Site) :
  map id (handleUpdateSite updatedSite sites) = map id sites
  ∧ length (handleUpdateSite updatedSite sites) = length sites
  ∧ (∀ links, linkData (handleUpdateSite updatedSite sites) links
              = linkData sites links)
  ∧ (id updatedSite ∉ map id sites → handleUpdateSite updatedSite sites = sites).
Proof.
  assert (map id (handleUpdateSite updatedSite sites) = map id sites) as Hids.
  { unfold handleUpdateSite. rewrite map_map. apply map_ext. intros s.
    destruct (String.eqb_spec (id s) (id updatedSite)); congruence. }
  split_and!.
  - done.
  - unfold handleUpdateSite. apply length_map.
  - intros links. unfold linkData. cbv zeta. by rewrite Hids.
  - intros Hno. unfold handleUpdateSite.
    rewrite <- (map_id sites) at 2. apply map_ext_in. intros s Hs.
    destruct (String.eqb_spec (id s) (id updatedSite)) as [E|E]; [|done].
    exfalso. apply Hno. rewrite <- E. apply list_elem_of_fmap.
    exists s. split; [done | by apply list_elem_of_In].
Qed.

Lemma handleUpdateSite_ids_witness :
  handleUpdateSite (mkSite "absent" "A" (mkLocation 0 0 "d") [] "" [] []) TN_SITES
  = TN_SITES.
Proof.
  apply (handleUpdateSite_ids (mkSite "absent" "A" (mkLocation 0 0 "d") [] "" [] [])
           TN_SITES).
  apply (bool_decide_unpack _). vm_compute. exact I.
Defined.

(** X7. With unique identifiers, updating a site replaces the one site
    that carries its identifier, at its position, and leaves every
    other site as it is. *)
Theorem handleUpdateSite_replaces (updatedSite old : Site) (sites : list Site) (i : nat) :
  NoDup (map id sites) → sites !! i = Some old → id old = id updatedSite →
  handleUpdateSite updatedSite sites = <[i := updatedSite]> sites.
Proof.
  intros Hnd Hi Hid. apply list_eq. intros j.
  unfold handleUpdateSite. rewrite list_lookup_fmap.
  destruct (decide (i = j)) as [<-|Hij].
  - rewrite list_lookup_insert_eq by (by eapply lookup_lt_Some).
    rewrite Hi. simpl. by rewrite Hid, String.eqb_refl.
  - rewrite list_lookup_insert_ne by done.
    destruct (sites !! j) as [s|] eqn:Hj; [|done]. simpl.
    destruct (String.eqb_spec (id s) (id updatedSite)) as [E|E]; [|done].
    exfalso. apply Hij.
    apply (NoDup_lookup (map id sites) i j (id old) Hnd).
    + by rewrite list_lookup_fmap, Hi.
    + rewrite list_lookup_fmap, Hj. simpl. congruence.
Qed.

Lemma handleUpdateSite_replaces_witness :
  handleUpdateSite (withArtifacts keezhadi []) TN_SITES
  = [adichanallur; withArtifacts keezhadi []; kodumanal; arikamedu; porunthal].
Proof.
  apply (handleUpdateSite_replaces (withArtifacts keezhadi []) keezhadi TN_SITES 1).
  - apply (bool_decide_unpack _). vm_compute. exact I.
  - reflexivity.
  - reflexivity.
Defined.

(** X8. Adding a site keeps every result computed before, with its
    score, and adds one result from each earlier site to the new one:
    the recomputed results are, up to order, the old results and this
    new row. *)
Theorem computeSimilarity_handleAddSite (newSite : Site) (sites : list Site) :
  computeSimilarity (handleAddSite newSite sites)
  ≡ₚ (computeSimilarity sites ++ map (fun a => mkResult a newSite) sites)%list.
Proof.
  unfold handleAddSite. induction sites as [|a rest IH]; [done|].
  change ((a :: rest) ++ [newSite])%list with (a :: (rest ++ [newSite]))%list.
  rewrite !computeSimilarity_cons, IH, map_app. cbn [map].
  rewrite <- !app_assoc. apply Permutation_app_head.
  cbn [app]. rewrite <- Permutation_middle. done.
Qed.

(** ** Sorting *)

Lemma sort_insert_Permutation {A} (after : A → A → bool) (x : A) (l : list A) :
  sort_insert after x l ≡ₚ x :: l.
Proof.
  induction l as [|y l IH]; simpl; [done|].
  destruct (after y x); [done|]. rewrite IH. apply Permutation_swap.
Qed.

Lemma Array_sort_Permutation {A} (after : A → A → bool) (l : list A) :
  Array_sort after l ≡ₚ l.
Proof.
  unfold Array_sort.
  assert (∀ acc, foldl (fun acc x => sort_insert after x acc) acc l
                 ≡ₚ (acc ++ l)%list) as Hgen.
  { induction l as [|x l IH]; intros acc; simpl.
    - by rewrite app_nil_r.
    - rewrite IH, sort_insert_Permutation.
      by rewrite <- Permutation_middle. }
  apply (Hgen []).
Qed.

Section sorted.
Context {A : Type} (after : A → A → bool) (P : A → Prop).
Hypothesis after_asym : ∀ a b, P a → P b → after a b = true → after b a = false.
Hypothesis after_trans :
  ∀ a b c, P a → P b → P c →
           after a b = false → after b c = false → after a c = false.

Lemma sort_insert_sorted (x : A) (l : list A) :
  P x → Forall P l →
  StronglySorted (fun a b => after a b = false) l →
  StronglySorted (fun a b => after a b = false) (sort_insert after x l).
Proof.
  intros Hx HP Hs. induction l as [|y l IH]; simpl.
  - repeat constructor.
  - apply Forall_cons in HP as [Hy HP].
    apply StronglySorted_inv in Hs as [Hs Hyl].
    destruct (after y x) eqn:E.
    + constructor; [by constructor|].
      assert (after x y = false) as Hxy by (by apply after_asym).
      constructor; [done|].
      rewrite Forall_forall in Hyl, HP. apply Forall_forall. intros z Hz.
      apply (after_trans x y z); auto.
    + constructor; [by apply IH|].
      apply Forall_forall. intros z Hz.
      rewrite sort_insert_Permutation in Hz.
      apply elem_of_cons in Hz as [->|Hz]; [done|].
      rewrite Forall_forall in Hyl. auto.
Qed.

(** The sort puts any list of elements that the comparator orders
    consistently in order. *)
Lemma Array_sort_sorted (l : list A) :
  Forall P l → StronglySorted (fun a b => after a b = false) (Array_sort after l).
Proof.
  unfold Array_sort.
  assert (∀ acc, Forall P acc → Forall P l →
                 StronglySorted (fun a b => after a b = false) acc →
                 StronglySorted (fun a b => after a b = false)
                   (foldl (fun acc x => sort_insert after x acc) acc l)) as Hgen.
  { induction l as [|x l IH]; intros acc Hacc Hl Hs; simpl; [done|].
    apply Forall_cons in Hl as [Hx Hl]. apply IH; [|done|].
    - rewrite sort_insert_Permutation. by constructor.
    - by apply sort_insert_sorted. }
  intros Hl. apply Hgen; [constructor | done | constructor].
Qed.

End sorted.

(** ** Candidates for comparison *)

Lemma scoreAfter_Fin (a b : Site * number) (v w : Q) :
  a.2 = Fin v → b.2 = Fin w →
  (scoreAfter a b = true ↔ (v < w)%Q) ∧ (scoreAfter a b = false ↔ (w <= v)%Q).
Proof.
  intros Ha Hb. unfold scoreAfter. rewrite Ha, Hb. simpl.
  assert (Qlt_bool 0 (w - v) = true ↔ (v < w)%Q) as Hlt.
  { rewrite Qlt_bool_true. unfold Qminus. symmetry. apply Qlt_minus_iff. }
  split; [done|].
  destruct (Qlt_bool 0 (w - v)) eqn:E.
  - split; [done|]. intros Hle.
    exfalso. apply (Qlt_not_le v w); [by apply Hlt | done].
  - split; [|done]. intros _. apply Qnot_lt_le. intros Hvw.
    apply Hlt in Hvw. discriminate Hvw.
Qed.

Lemma scoreAfter_false (a b : Site * number) :
  isFin a.2 → isFin b.2 → scoreAfter a b = false → numLe b.2 a.2.
Proof.
  destruct a as [sa [v| | |]], b as [sb [w| | |]]; simpl; try done.
  intros _ _ H.
  by apply (scoreAfter_Fin (sa, Fin v) (sb, Fin w) v w eq_refl eq_refl).
Qed.

Lemma scoreAfter_asym (a b : Site * number) :
  isFin a.2 → isFin b.2 → scoreAfter a b = true → scoreAfter b a = false.
Proof.
  destruct a as [sa [v| | |]], b as [sb [w| | |]]; simpl; try done.
  intros _ _ H.
  apply (scoreAfter_Fin (sa, Fin v) (sb, Fin w) v w eq_refl eq_refl) in H.
  apply (scoreAfter_Fin (sb, Fin w) (sa, Fin v) w v eq_refl eq_refl).
  by apply Qlt_le_weak.
Qed.

Lemma scoreAfter_trans (a b c : Site * number) :
  isFin a.2 → isFin b.2 → isFin c.2 →
  scoreAfter a b = false → scoreAfter b c = false → scoreAfter a c = false.
Proof.
  destruct a as [sa [u| | |]], b as [sb [v| | |]], c as [sc [w| | |]];
    simpl; try done.
  intros _ _ _ H1 H2.
  apply (scoreAfter_Fin (sa, Fin u) (sb, Fin v) u v eq_refl eq_refl) in H1.
  apply (scoreAfter_Fin (sb, Fin v) (sc, Fin w) v w eq_refl eq_refl) in H2.
  apply (scoreAfter_Fin (sa, Fin u) (sc, Fin w) u w eq_refl eq_refl).
  by apply (Qle_trans w v u).
Qed.

Lemma candidateScore_isFin (site s : Site) : isFin (candidateScore site s).
Proof.
  change (candidateScore site s) with (calculateSim site s).
  destruct (calculateSim_Fin site s) as (q & -> & _). done.
Qed.

Lemma StronglySorted_impl_elem {A} (R1 R2 : A → A → Prop) (P : A → Prop) (l : list A) :
  (∀ a b, P a → P b → R1 a b → R2 a b) →
  Forall P l → StronglySorted R1 l → StronglySorted R2 l.
Proof.
  intros Himpl HP Hs. induction Hs as [|x l Hs IH Hx]; [constructor|].
  apply Forall_cons in HP as [Hpx HP]. constructor; [by apply IH|].
  rewrite Forall_forall in Hx, HP. apply Forall_forall. intros z Hz.
  apply Himpl; auto.
Qed.

(** X9. The candidates shown for a site are at most three, and exactly
    three when at least three other sites exist; none is the site
    itself; each comes with its similarity score to the site; they are
    listed by non-increasing score; and every other site that is left
    out scores no more than each of those shown. *)
Theorem topSimilarSites_spec (site : Site) (allSites : list Site) :
  let top := topSimilarSites site allSites in
  length top
  = min 3 (length (List.filter (fun s => negb (String.eqb (id s) (id site))) allSites))
  ∧ (∀ e, e ∈ top →
       e.1 ∈ allSites ∧ id e.1 ≠ id site ∧ e.2 = calculateSim site e.1)
  ∧ StronglySorted (fun e1 e2 => numLe e2.2 e1.2) top
  ∧ (∀ s, s ∈ allSites → id s ≠ id site →
       (s, calculateSim site s) ∈ top
       ∨ ∀ e, e ∈ top → numLe (calculateSim site s) e.2).
Proof.
  intros top. unfold top, topSimilarSites.
  set (candidates := List.filter _ allSites).
  set (entries := map (fun s => (s, candidateScore site s)) candidates).
  set (sorted := Array_sort scoreAfter entries).
  assert (sorted ≡ₚ entries) as Hperm by apply Array_sort_Permutation.
  assert (∀ e, e ∈ entries ↔
               e.1 ∈ allSites ∧ id e.1 ≠ id site ∧ e.2 = calculateSim site e.1)
    as Hentries.
  { intros [s v]. unfold entries, candidates. rewrite list_elem_of_fmap. simpl.
    split.
    - intros (s' & [= -> ->] & Hs').
      apply list_elem_of_In, List.filter_In in Hs' as [Hin Hne].
      apply negb_true_iff, String.eqb_neq in Hne.
      split_and!; [by apply list_elem_of_In | done | done].
    - intros (Hin & Hne & ->). exists s. split; [done|].
      apply list_elem_of_In, List.filter_In. split; [by apply list_elem_of_In|].
      by apply negb_true_iff, String.eqb_neq. }
  assert (Forall (fun e : Site * number => isFin e.2) entries) as Hfin.
  { apply Forall_forall. intros e He. apply Hentries in He as (_ & _ & ->).
    apply candidateScore_isFin. }
  assert (Forall (fun e : Site * number => isFin e.2) sorted) as Hfin'
    by (by rewrite Hperm).
  assert (StronglySorted (fun a b => scoreAfter a b = false) sorted) as Hsorted.
  { apply (Array_sort_sorted scoreAfter (fun e => isFin e.2));
      [apply scoreAfter_asym | apply scoreAfter_trans | done]. }
  rewrite <- (take_drop 3 sorted) in Hsorted, Hfin'.
  apply Forall_app in Hfin' as [Hfin3 HfinR].
  split_and!.
  - rewrite length_take. f_equal.
    rewrite (Permutation_length Hperm). unfold entries. apply length_map.
  - intros e He. apply Hentries. rewrite <- Hperm, <- (take_drop 3 sorted).
    apply elem_of_app. by left.
  - apply (StronglySorted_impl_elem _ _ (fun e => isFin e.2) _
             (fun a b Ha Hb H => scoreAfter_false a b Ha Hb H) Hfin3).
    by apply StronglySorted_app_1_l in Hsorted.
  - intros s Hs Hne.
    assert ((s, calculateSim site s) ∈ sorted) as Hin
      by (rewrite Hperm; by apply Hentries).
    rewrite <- (take_drop 3 sorted) in Hin.
    apply elem_of_app in Hin as [Hin|Hin]; [by left|right].
    intros e He.
    change (calculateSim site s) with ((s, calculateSim site s).2).
    apply scoreAfter_false.
    + rewrite Forall_forall in Hfin3. by apply Hfin3.
    + rewrite Forall_forall in HfinR. by apply (HfinR (s, calculateSim site s)).
    + by apply (StronglySorted_app_1_elem_of _ _ _ _ _ Hsorted).
Qed.

Lemma topSimilarSites_spec_witness :
  (kodumanal, calculateSim keezhadi kodumanal) ∈ topSimilarSites keezhadi TN_SITES
  ∨ ∀ e, e ∈ topSimilarSites keezhadi TN_SITES →
         numLe (calculateSim keezhadi kodumanal) e.2.
Proof.
  apply (proj2 (proj2 (proj2 (topSimilarSites_spec keezhadi TN_SITES)))).
  - do 2 right. left.
  - discriminate.
Defined.

(** ** Registering and removing artifacts *)

Lemma filter_index_delete {A} (index k : nat) (l : list A) :
  filter_index (fun _ i => negb (i =? index)%nat) k l
  = if (index <? k)%nat then l else delete (index - k)%nat l.
Proof.
  revert k. induction l as [|a l IH]; intros k; simpl.
  - by destruct (index <? k)%nat.
  - rewrite IH.
    destruct (Nat.eqb_spec k index) as [->|Hne]; simpl.
    + rewrite Nat.sub_diag.
      destruct (Nat.ltb_spec index index); [lia|].
      destruct (Nat.ltb_spec index (S index)); [done | lia].
    + destruct (Nat.ltb_spec index k), (Nat.ltb_spec index (S k)); try lia; [done|].
      replace (index - k)%nat with (S (index - S k)) by lia. done.
Qed.

Lemma withArtifacts_same (site : Site) : withArtifacts site (artifacts site) = site.
Proof. by destruct site. Qed.

Lemma removeArtifact_delete (index : nat) (site : Site) :
  removeArtifact index site = withArtifacts site (delete index (artifacts site)).
Proof.
  unfold removeArtifact. cbv zeta. rewrite filter_index_delete.
  simpl. by rewrite Nat.sub_0_r.
Qed.

(** X10. Removing the artifact at an index deletes that one entry and
    keeps the others in order; an index past the end changes nothing,
    and no other field of the site is touched. *)
Theorem removeArtifact_spec (index : nat) (site : Site) :
  artifacts (removeArtifact index site) = delete index (artifacts site)
  ∧ removeArtifact index site = withArtifacts site (delete index (artifacts site))
  ∧ ((length (artifacts site) ≤ index)%nat → removeArtifact index site = site)
  ∧ ((index < length (artifacts site))%nat →
     S (length (artifacts (removeArtifact index site))) = length (artifacts site)).
Proof.
  rewrite removeArtifact_delete. split_and!; [done | done | |].
  - intros Hge. rewrite delete_take_drop.
    rewrite take_ge, drop_ge, app_nil_r by lia. apply withArtifacts_same.
  - intros Hlt. simpl. rewrite length_delete; [lia|].
    by apply lookup_lt_is_Some_2.
Qed.

Lemma removeArtifact_spec_witness :
  removeArtifact 7 keezhadi = keezhadi
  ∧ S (length (artifacts (removeArtifact 1 keezhadi))) = 3%nat.
Proof.
  destruct (removeArtifact_spec 7 keezhadi) as (_ & _ & Hge & _).
  destruct (removeArtifact_spec 1 keezhadi) as (_ & _ & _ & Hlt).
  split; [apply Hge | apply Hlt]; simpl; lia.
Defined.

(** X11. The artifact form is rejected exactly when the name or the
    material is empty; otherwise the artifact is appended to the site,
    and removing the entry at the old length gives the site back. *)
Theorem handleAddArtifact_spec (newArtifact : Artifact) (site : Site) :
  (handleAddArtifact newArtifact site = None
   ↔ art_name newArtifact = "" ∨ material newArtifact = "")
  ∧ (∀ site', handleAddArtifact newArtifact site = Some site' →
       artifacts site' = (artifacts site ++ [newArtifact])%list
       ∧ id site' = id site
       ∧ removeArtifact (length (artifacts site)) site' = site).
Proof.
  unfold handleAddArtifact.
  destruct (String.eqb_spec (art_name newArtifact) "") as [En|En];
    destruct (String.eqb_spec (material newArtifact) "") as [Em|Em]; simpl;
    (split; [split; [try done; auto | intros [?|?]; done]|]);
    intros site' [= <-]. 
  split_and!; [done | done |].
  rewrite removeArtifact_delete.
  unfold withArtifacts at 1. simpl.
  rewrite delete_take_drop, take_app_length.
  rewrite drop_ge by (rewrite length_app; simpl; lia).
  rewrite app_nil_r. apply withArtifacts_same.
Qed.

Lemma handleAddArtifact_spec_witness :
  handleAddArtifact (mkArtifact "" "Iron" tool "") keezhadi = None.
Proof.
  apply (handleAddArtifact_spec (mkArtifact "" "Iron" tool "") keezhadi).
  left. reflexivity.
Defined.

Lemma materialSet_withArtifacts_snoc (site : Site) (a : Artifact) :
  materialSet (withArtifacts site (artifacts site ++ [a]))
  = {[ JSString.toLowerCase (material a) ]} ∪ materialSet site.
Proof.
  apply set_eq. intros z. unfold materialSet, materialsOf. simpl.
  rewrite elem_of_union, elem_of_singleton, !elem_of_list_to_set, !elem_of_new_Set.
  rewrite map_app, elem_of_app. simpl. rewrite list_elem_of_singleton. tauto.
Qed.

(** X12. Registering an artifact adds its lower-cased material to the
    material set of the site and nothing else; when that material was
    already present, in whatever letter case, every similarity score of
    the site stays as it was. *)
Theorem handleAddArtifact_scores (newArtifact : Artifact) (site site' : Site) :
  handleAddArtifact newArtifact site = Some site' →
  materialSet site' = {[ JSString.toLowerCase (material newArtifact) ]} ∪ materialSet site
  ∧ (JSString.toLowerCase (material newArtifact) ∈ materialsOf site →
     ∀ other, calculateSim site' other = calculateSim site other
              ∧ calculateSim other site' = calculateSim other site).
Proof.
  unfold handleAddArtifact.
  destruct (_ || _); [done|]. intros [= <-].
  pose proof (materialSet_withArtifacts_snoc site newArtifact) as Hset.
  split; [done|]. intros Hin other.
  assert (materialSet (withArtifacts site (artifacts site ++ [newArtifact]))
          = materialSet site) as Hsame.
  { rewrite Hset. apply set_eq. intros z.
    rewrite elem_of_union, elem_of_singleton. split; [|auto].
    intros [->|?]; [|done]. unfold materialSet. by apply elem_of_list_to_set. }
  rewrite !calculateSim_sets, Hsame. done.
Qed.

Lemma handleAddArtifact_scores_witness :
  calculateSim
    (withArtifacts keezhadi
       (artifacts keezhadi ++ [mkArtifact "Spindle Whorl" "TERRACOTTA" tool ""]))
    adichanallur
  = calculateSim keezhadi adichanallur.
Proof.
  apply (proj2 (handleAddArtifact_scores
                  (mkArtifact "Spindle Whorl" "TERRACOTTA" tool "") keezhadi _
                  eq_refl)).
  vm_compute. left.
Defined.

(** ** Drag moves *)

Lemma alter_known {A} (f : A → A) (l : list A) (i : nat) (a : A) :
  l !! i = Some a → alter f i l = <[i := f a]> l.
Proof.
  intros Hi. apply list_eq. intros j. destruct (decide (i = j)) as [<-|Hne].
  - rewrite list_lookup_alter_eq, Hi.
    rewrite list_lookup_insert_eq by (by eapply lookup_lt_Some). done.
  - by rewrite list_lookup_alter_ne, list_lookup_insert_ne.
Qed.

Lemma dragged_fold (moves : list DragEvent) (st : GraphState) (i : nat) (n : GraphNode) :
  Forall (fun e => subject e = i) moves →
  nodes st !! i = Some n →
  ∃ px py,
    nodes (foldl (fun s e => dragged e s) st moves)
    = <[i := pinAt px py n]> (nodes st)
    ∧ simulation (foldl (fun s e => dragged e s) st moves) = simulation st
    ∧ (moves = [] → px = fx n ∧ py = fy n)
    ∧ (∀ e, last moves = Some e → px = Some (ev_x e) ∧ py = Some (ev_y e)).
Proof.
  revert st n. induction moves as [|e moves IH]; intros st n Hall Hn; simpl.
  - exists (fx n), (fy n). split_and!; [|done..].
    destruct n. simpl. by rewrite list_insert_id.
  - apply Forall_cons in Hall as [He Hall].
    assert (nodes (dragged e st)
            = <[i := pinAt (Some (ev_x e)) (Some (ev_y e)) n]> (nodes st)) as Hd.
    { unfold dragged. simpl. rewrite He. by apply alter_known. }
    destruct (IH (dragged e st) (pinAt (Some (ev_x e)) (Some (ev_y e)) n) Hall)
      as (px & py & Hnodes & Hsim & Hnil & Hlast).
    { rewrite Hd. apply list_lookup_insert_eq. by eapply lookup_lt_Some. }
    exists px, py. split_and!.
    + rewrite Hnodes, Hd, list_insert_insert_eq. done.
    + by rewrite Hsim.
    + done.
    + intros e' He'. destruct moves as [|e2 moves].
      * simpl in He'. injection He' as <-. by destruct (Hnil eq_refl) as [-> ->].
      * apply Hlast. by rewrite last_cons_cons in He'.
Qed.

(** X14. While a gesture lasts, after the drag start and one or more
    drag moves on the same node, the node is pinned at the pointer
    position of the last move; its own position and velocity fields are
    not written by the handlers, and the other nodes are as before. *)
Theorem dragged_pins_at_pointer (start last_move : DragEvent) (moves : list DragEvent)
    (st : GraphState) (n : GraphNode) :
  nodes st !! subject start = Some n →
  Forall (fun e => subject e = subject start) moves →
  last moves = Some last_move →
  nodes (foldl (fun s e => dragged e s) (dragstarted start st) moves)
  = <[subject start :=
        mkGraphNode (node_id n) (x n) (y n) (vx n) (vy n)
          (Some (ev_x last_move)) (Some (ev_y last_move))]> (nodes st).
Proof.
  intros Hn Hmoves Hlast.
  assert (nodes (dragstarted start st)
          = <[subject start := pinAt (Some (x n)) (Some (y n)) n]> (nodes st)) as Hs.
  { unfold dragstarted. simpl.
    by apply (alter_known (fun m => pinAt (Some (x m)) (Some (y m)) m)). }
  destruct (dragged_fold moves (dragstarted start st) (subject start)
              (pinAt (Some (x n)) (Some (y n)) n) Hmoves)
    as (px & py & Hnodes & _ & _ & Hptr).
  { rewrite Hs. apply list_lookup_insert_eq. by eapply lookup_lt_Some. }
  destruct (Hptr last_move Hlast) as [-> ->].
  rewrite Hnodes, Hs, list_insert_insert_eq. done.
Qed.

Lemma dragged_pins_at_pointer_witness :
  nodes (foldl (fun s e => dragged e s) (dragstarted firstDrag cooledState)
           [mkDragEvent 1 0 400 300; mkDragEvent 1 0 500 500])
  = [ mkGraphNode "adichanallur" 300 250 0 0 (Some 500%Q) (Some 500%Q);
      mkGraphNode "keezhadi" 520 250 0 0 None None ].
Proof.
  apply (dragged_pins_at_pointer firstDrag (mkDragEvent 1 0 500 500)
           [mkDragEvent 1 0 400 300; mkDragEvent 1 0 500 500] cooledState
           (mkGraphNode "adichanallur" 300 250 0 0 None None));
    try reflexivity.
  repeat constructor.
Defined.

(** ** Canonical labels *)

Lemma new_Set_NoDup {A} `{EqDecision A} (l : list A) :
  NoDup l → JSSet.new_Set l = l.
Proof.
  unfold JSSet.new_Set.
  assert (∀ acc, NoDup (acc ++ l) → foldl JSSet.add acc l = (acc ++ l)%list) as Hgen.
  { induction l as [|a l IH]; intros acc Hnd; simpl.
    - by rewrite app_nil_r.
    - assert (JSSet.add acc a = (acc ++ [a])%list) as ->.
      { unfold JSSet.add. destruct (JSSet.has acc a) eqn:E; [|done].
        apply has_true in E. apply NoDup_app in Hnd as (_ & Hdisj & _).
        exfalso. apply (Hdisj a E). left. }
      rewrite IH; rewrite <- app_assoc; done. }
  intros Hnd. by apply (Hgen []).
Qed.

Lemma mapChronologyFuzzy_value (c : Chronology) :
  mapChronologyFuzzy (chronologyValue c) = c.
Proof. destruct c; vm_compute; reflexivity. Qed.

Lemma siteChronology_of_values (c : list Chronology) :
  NoDup c → c ≠ [] → (UNKNOWN ∈ c → c = [UNKNOWN]) →
  siteChronology (Some (map chronologyValue c)) = c.
Proof.
  intros Hnd Hne Hunk. unfold siteChronology. simpl default.
  rewrite map_map, (map_ext _ (fun k => k) mapChronologyFuzzy_value), map_id.
  unfold uniqueChronology. rewrite new_Set_NoDup by done.
  assert ((if (1 <? length c)%nat then filter (fun k => k ≠ UNKNOWN) c else c) = c)
    as ->.
  { destruct (Nat.ltb_spec 1 (length c)) as [Hlt|_]; [|done].
    induction c as [|k c IH]; [done|].
    assert (UNKNOWN ∉ k :: c) as Hno.
    { intros Hin. rewrite (Hunk Hin) in Hlt. simpl in Hlt. lia. }
    clear IH Hunk Hlt Hne Hnd. induction (k :: c) as [|k' c' IH]; [done|].
    rewrite filter_cons_True by (intros ->; apply Hno; left).
    f_equal. apply IH. intros Hin. apply Hno. by right. }
  destruct c; [done|]. reflexivity.
Qed.

(** X15. The display value of every category maps back to that
    category, and a chronology produced by the ingestion is stable:
    feeding the display values of its categories through the mapping
    again gives the same chronology. *)
Theorem siteChronology_reingest :
  (∀ c : Chronology, mapChronologyFuzzy (chronologyValue c) = c)
  ∧ (∀ extracted : option (list string),
       siteChronology (Some (map chronologyValue (siteChronology extracted)))
       = siteChronology extracted).
Proof.
  split; [apply mapChronologyFuzzy_value|].
  intros extracted. set (mapped := map mapChronologyFuzzy (default [] extracted)).
  assert (siteChronology extracted =
            if (0 <? length (uniqueChronology mapped))%nat
            then uniqueChronology mapped else [UNKNOWN]) as Hc by reflexivity.
  pose proof (NoDup_new_Set mapped) as Hnd.
  destruct (uniqueChronology_cases mapped) as [[Hle Hu]|(Hlt & Hu & Hne)].
  - rewrite Hu in Hc.
    destruct (JSSet.new_Set mapped) as [|a [|b rest]]; simpl in Hle, Hc; [| |lia].
    + rewrite Hc. vm_compute. reflexivity.
    + rewrite Hc. destruct a; vm_compute; reflexivity.
  - assert (siteChronology extracted = uniqueChronology mapped) as ->.
    { rewrite Hc. destruct (uniqueChronology mapped); [done | reflexivity]. }
    apply siteChronology_of_values; [| done |].
    + rewrite Hu. by apply NoDup_filter.
    + rewrite Hu. intros [? _]%list_elem_of_filter. done.
Qed.

(** ** Normalized fields and identifiers *)

Lemma lower_alnum_facts (c : ascii) :
  JSString.is_lower_alnum c = true →
  JSString.is_white c = false ∧ JSString.lower_char c = c.
Proof.
  unfold JSString.is_lower_alnum, JSString.is_lower, JSString.is_digit,
    JSString.is_white, JSString.lower_char, JSString.is_upper.
  generalize (nat_of_ascii c). intros n H.
  apply orb_true_iff in H.
  split.
  - apply orb_false_iff. split.
    + apply andb_false_iff.
      destruct (Nat.leb_spec 9 n), (Nat.leb_spec n 13); auto.
      exfalso. destruct H as [H|H]; apply andb_true_iff in H as [Hlo Hhi];
        apply Nat.leb_le in Hlo, Hhi; lia.
    + apply Nat.eqb_neq. intros ->.
      destruct H as [H|H]; apply andb_true_iff in H as [Hlo Hhi];
        apply Nat.leb_le in Hlo, Hhi; lia.
  - assert ((65 <=? n)%nat && (n <=? 90)%nat = false) as ->; [|done].
    apply andb_false_iff.
    destruct (Nat.leb_spec 65 n), (Nat.leb_spec n 90); auto.
    exfalso. destruct H as [H|H]; apply andb_true_iff in H as [Hlo Hhi];
      apply Nat.leb_le in Hlo, Hhi; lia.
Qed.

Lemma string_length_app (a b : string) :
  String.length (a ++ b) = (String.length a + String.length b)%nat.
Proof. induction a as [|c a IH]; simpl; [done | by rewrite IH]. Qed.

Lemma list_ascii_of_string_app (a b : string) :
  list_ascii_of_string (a ++ b)
  = (list_ascii_of_string a ++ list_ascii_of_string b)%list.
Proof. induction a as [|c a IH]; simpl; [done | by rewrite IH]. Qed.

Lemma string_length_of_list (l : list ascii) :
  String.length (string_of_list_ascii l) = length l.
Proof. induction l as [|c l IH]; simpl; [done | by rewrite IH]. Qed.

Lemma allChars_app (p : ascii → bool) (a b : string) :
  allChars p (a ++ b) ↔ allChars p a ∧ allChars p b.
Proof. unfold allChars. rewrite list_ascii_of_string_app. apply Forall_app. Qed.

Lemma slugChar_facts (c : ascii) :
  isSlugChar c = true →
  JSString.is_white c = false ∧ JSString.lower_char c = c.
Proof.
  unfold isSlugChar. intros [H|H]%orb_true_iff.
  - by apply lower_alnum_facts.
  - apply Ascii.eqb_eq in H as ->. by vm_compute.
Qed.

Lemma collapse_runs_shape (t : string) (b : bool) :
  slugShape b (JSString.collapse_runs b t) = true.
Proof.
  revert b. induction t as [|c t IH]; intros b; simpl; [done|].
  destruct (JSString.is_lower_alnum c) eqn:E; simpl.
  - rewrite E. apply IH.
  - destruct b; [apply IH|]. simpl. apply IH.
Qed.

Lemma slugShape_allChars (s : string) (b : bool) :
  slugShape b s = true → allChars isSlugChar s.
Proof.
  unfold allChars. revert b. induction s as [|c s IH]; intros b; simpl;
    [constructor|].
  destruct (JSString.is_lower_alnum c) eqn:E; simpl.
  - intros H. constructor; [|by apply (IH false)].
    unfold isSlugChar. by rewrite E.
  - intros [[Hc _]%andb_true_iff H]%andb_true_iff.
    constructor; [|by apply (IH true)].
    unfold isSlugChar. by rewrite E, Hc.
Qed.

Lemma slugShape_no_double_dash (s : string) (b : bool) :
  slugShape b s = true → ¬ occursIn "--" s.
Proof.
  revert b. induction s as [|c s IH]; intros b Hs (pre & post & Heq).
  - destruct pre; discriminate Heq.
  - destruct pre as [|d pre].
    + simpl in Heq. injection Heq as -> ->.
      vm_compute in Hs. by destruct b.
    + injection Heq as -> ->. simpl in Hs.
      destruct (JSString.is_lower_alnum d).
      * apply (IH false Hs). by exists pre, post.
      * apply andb_true_iff in Hs as [_ Hs]. apply (IH true Hs).
        by exists pre, post.
Qed.

Lemma slugShape_collapse_id (s : string) (b : bool) :
  slugShape b s = true → JSString.collapse_runs b s = s.
Proof.
  revert b. induction s as [|c s IH]; intros b; simpl; [done|].
  destruct (JSString.is_lower_alnum c).
  - intros H. by rewrite IH.
  - intros [[Hc Hb]%andb_true_iff H]%andb_true_iff.
    apply Ascii.eqb_eq in Hc as ->. apply negb_true_iff in Hb as ->.
    by rewrite IH.
Qed.

Lemma slug_trim_lower_id (s : string) :
  allChars isSlugChar s →
  JSString.trim s = s ∧ JSString.toLowerCase s = s.
Proof.
  unfold allChars. intros Hall.
  assert (JSString.trimStart s = s) as Hstart.
  { destruct s as [|c s]; [done|]. simpl in *.
    apply Forall_cons in Hall as [Hc _].
    by destruct (slugChar_facts c Hc) as [-> _]. }
  unfold JSString.trim. rewrite Hstart. clear Hstart.
  induction s as [|c s IH]; [done|]. simpl in *.
  apply Forall_cons in Hall as [Hc Hall].
  destruct (slugChar_facts c Hc) as [Hw Hl].
  destruct (IH Hall) as [-> ->]. rewrite Hw, Hl.
  split; [by destruct s | done].
Qed.

(** X16. A normalized field holds only the characters [a-z0-9] and
    dashes, never two dashes in a row, and normalizing it again leaves
    it as it is. *)
Theorem normalizeField_spec (s : string) :
  allChars isSlugChar (normalizeField s)
  ∧ ¬ occursIn "--" (normalizeField s)
  ∧ normalizeField (normalizeField s) = normalizeField s.
Proof.
  pose proof (collapse_runs_shape
                (JSString.toLowerCase (JSString.trim s)) false) as Hshape.
  fold (normalizeField s) in Hshape.
  pose proof (slugShape_allChars _ _ Hshape) as Hall.
  split_and!; [done | by apply (slugShape_no_double_dash _ false) |].
  destruct (slug_trim_lower_id _ Hall) as [Ht Hl].
  unfold normalizeField at 1. rewrite Ht, Hl.
  by apply slugShape_collapse_id.
Qed.

Local Open Scope Z_scope.

Lemma digits_go_length (radix : Z) (fuel : nat) (n : Z) (acc : list ascii) (k : nat) :
  2 <= radix → 0 <= n < radix ^ Z.of_nat k → (1 ≤ k)%nat →
  (length (digits_go fuel radix n acc) ≤ k + length acc)%nat.
Proof.
  intros Hr. revert n acc k. induction fuel as [|fuel IH]; intros n acc k Hn Hk.
  - simpl. lia.
  - cbn [digits_go].
    destruct (Z.eqb_spec (n / radix) 0) as [Hz|Hnz]; [simpl; lia|].
    destruct k as [|[|k]]; [lia| |].
    + exfalso. apply Hnz. apply Z.div_small. change (Z.of_nat 1) with 1 in Hn.
      rewrite Z.pow_1_r in Hn. lia.
    + assert (n / radix < radix ^ Z.of_nat (S k)) as Hlt.
      { apply Z.div_lt_upper_bound; [lia|].
        rewrite (Nat2Z.inj_succ (S k)), Z.pow_succ_r in Hn by lia. lia. }
      pose proof (Z.div_pos n radix ltac:(lia) ltac:(lia)) as Hpos.
      pose proof (IH (n / radix) (digitChar (n mod radix) :: acc) (S k)
                    ltac:(lia) ltac:(lia)) as Hlen.
      simpl in Hlen. lia.
Qed.

Lemma stringToHash_length (str : string) :
  (String.length (stringToHash str) ≤ 6)%nat.
Proof.
  unfold stringToHash, toStringRadix.
  pose proof (hashCode_range str) as Hh.
  destruct (Z.ltb_spec (Z.abs (hashCode str)) 0) as [Hneg|_]; [lia|].
  rewrite string_length_of_list. unfold digits.
  pose proof (digits_go_length 36 (S (Z.to_nat (Z.log2 (Z.abs (hashCode str)))))
                (Z.abs (hashCode str)) [] 6 ltac:(lia)) as Hlen.
  simpl length in Hlen. rewrite Nat.add_0_r in Hlen. apply Hlen; [|lia].
  change (36 ^ Z.of_nat 6) with 2176782336. lia.
Qed.

Local Close Scope Z_scope.

Lemma isDigit36_slug (c : ascii) : isDigit36 c = true → isSlugChar c = true.
Proof.
  unfold isDigit36, isSlugChar, JSString.is_lower_alnum.
  destruct (JSString.is_digit c), (JSString.is_lower c); done.
Qed.

(** X17. An identifier derived from two normalized fields holds only
    the characters [a-z0-9] and dashes, whatever the salt, and is at
    most eight characters longer than the two fields together: two
    dashes and a hash suffix of one to six characters. *)
Theorem siteId_slug (normalizedName normalizedDistrict : string) (now : Z) :
  allChars isSlugChar normalizedName →
  allChars isSlugChar normalizedDistrict →
  allChars isSlugChar (siteId normalizedName normalizedDistrict now)
  ∧ (String.length normalizedName + String.length normalizedDistrict + 3
     ≤ String.length (siteId normalizedName normalizedDistrict now))%nat
  ∧ (String.length (siteId normalizedName normalizedDistrict now)
     ≤ String.length normalizedName + String.length normalizedDistrict + 8)%nat.
Proof.
  intros Hn Hd. unfold siteId. cbv zeta.
  set (input := normalizedName ++ "-" ++ normalizedDistrict ++ "-"
                ++ toStringRadix 10 now).
  pose proof (stringToHash_length input) as Hlen.
  assert (allChars isSlugChar (stringToHash input)
          ∧ (1 ≤ String.length (stringToHash input))%nat) as [Hhash Hpos].
  { unfold stringToHash, toStringRadix.
    destruct (Z.ltb_spec (Z.abs (hashCode input)) 0) as [Hneg|_]; [lia|].
    destruct (digits_spec 36 ltac:(lia) (Z.abs (hashCode input))
                (Z.abs_nonneg _)) as (Hne & Hall & _).
    split.
    - unfold allChars. rewrite list_ascii_of_string_of_list_ascii.
      eapply Forall_impl; [exact Hall|]. apply isDigit36_slug.
    - rewrite string_length_of_list.
      destruct (digits 36 (Z.abs (hashCode input))); [done | simpl; lia]. }
  split_and!.
  - rewrite !allChars_app. split_and!; try done; by repeat constructor.
  - rewrite !string_length_app. simpl. lia.
  - rewrite !string_length_app. simpl. lia.
Qed.

Lemma siteId_slug_witness :
  (String.length (siteId (normalizeField "  New  Site!! ") (normalizeField "Erode") 1700000000000)
   ≤ String.length (normalizeField "  New  Site!! ")
     + String.length (normalizeField "Erode") + 8)%nat.
Proof.
  apply (siteId_slug (normalizeField "  New  Site!! ") (normalizeField "Erode")
           1700000000000).
  - vm_compute. repeat constructor.
  - vm_compute. repeat constructor.
Defined.

(** ** Files and report text *)

Lemma substring_0_all (s : string) : substring 0 (String.length s) s = s.
Proof. induction s as [|c s IH]; simpl; [done | by rewrite IH]. Qed.

Lemma substring_split (s : string) (k : nat) :
  s = substring 0 k s ++ substring k (String.length s - k) s.
Proof.
  revert k. induction s as [|c s IH]; intros k.
  - by destruct k.
  - destruct k as [|k]; simpl.
    + by rewrite substring_0_all.
    + transitivity
        (String c (substring 0 k s ++ substring k (String.length s - k) s));
        [f_equal; apply IH | reflexivity].
Qed.

Lemma substring_0_length (s : string) (k : nat) :
  String.length (substring 0 k s) = min k (String.length s).
Proof.
  revert k. induction s as [|c s IH]; intros k; destruct k as [|k]; simpl;
    [done.. | by rewrite IH].
Qed.

Lemma substring_suffix (pre suffix : string) :
  substring (String.length pre) (String.length suffix) (pre ++ suffix) = suffix.
Proof.
  induction pre as [|c pre IH]; [apply substring_0_all | exact IH].
Qed.

(** [endsWith] holds exactly of the strings that are some text followed
    by the suffix. *)
Lemma endsWith_spec (s suffix : string) :
  endsWith s suffix = true ↔ ∃ pre, s = pre ++ suffix.
Proof.
  unfold endsWith. cbv zeta. rewrite andb_true_iff, Nat.leb_le, String.eqb_eq.
  split.
  - intros [Hle Hsub].
    exists (substring 0 (String.length s - String.length suffix) s).
    pose proof (substring_split s (String.length s - String.length suffix)) as Hs.
    replace (String.length s - (String.length s - String.length suffix))%nat
      with (String.length suffix) in Hs by lia.
    by rewrite Hsub in Hs.
  - intros [pre ->]. rewrite string_length_app. split; [lia|].
    replace (String.length pre + String.length suffix - String.length suffix)%nat
      with (String.length pre) by lia.
    apply substring_suffix.
Qed.

Lemma toLowerCase_app (a b : string) :
  JSString.toLowerCase (a ++ b) = JSString.toLowerCase a ++ JSString.toLowerCase b.
Proof. induction a as [|c a IH]; simpl; [done | by rewrite IH]. Qed.

(** X18. A file that the dashboard takes for a PDF is accepted and is
    read by the PDF reader of the extraction service; a file is rejected
    exactly when it is neither text nor PDF; and an accepted file that
    the service reads as plain text is one the dashboard took for text. *)
Theorem handleFile_routing (file : File) :
  (isPdf file = true → handleFile file = inr file ∧ reportReader file = PdfReader)
  ∧ (handleFile file = inl "Please upload a text or PDF file."
     ↔ isText file = false ∧ isPdf file = false)
  ∧ (∀ f, handleFile file = inr f →
       f = file ∧ (reportReader f = TextReader → isText f = true)).
Proof.
  assert (isPdf file = true → reportReader file = PdfReader) as Hpdf.
  { unfold isPdf, reportReader. intros [Ht|Hn]%orb_true_iff.
    - by rewrite Ht.
    - apply endsWith_spec in Hn as [pre Hn].
      assert (endsWith (JSString.toLowerCase (file_name file)) ".pdf" = true) as ->.
      { apply endsWith_spec. exists (JSString.toLowerCase pre).
        rewrite Hn, toLowerCase_app. done. }
      by rewrite orb_true_r. }
  unfold handleFile. split_and!.
  - intros Hp. split; [|by apply Hpdf]. by rewrite Hp, andb_false_r.
  - destruct (isText file), (isPdf file); simpl; split; try done.
    all: by intros [? ?].
  - intros f. destruct (isText file) eqn:Et, (isPdf file) eqn:Ep; simpl;
      try (intros [= <-]; split; [done|]; try done).
    + intros Hr. rewrite Hpdf in Hr by done. discriminate Hr.
    + done.
Qed.

Lemma handleFile_routing_witness :
  handleFile (mkFile "report-2024.pdf" "") = inr (mkFile "report-2024.pdf" "")
  ∧ reportReader (mkFile "report-2024.pdf" "") = PdfReader.
Proof.
  apply (handleFile_routing (mkFile "report-2024.pdf" "")). reflexivity.
Defined.

(** X19. The report text handed to the model is the text itself when it
    has at most 5000 characters; otherwise it is the first 5000
    characters of the text followed by the truncation marker.  It never
    has more than 5026 characters. *)
Theorem truncateReport_spec (reportText : string) :
  ((String.length reportText ≤ 5000)%nat → truncateReport reportText = reportText)
  ∧ ((5000 < String.length reportText)%nat →
     ∃ kept rest,
       reportText = kept ++ rest
       ∧ String.length kept = 5000%nat
       ∧ truncateReport reportText = kept ++ "... [truncated for length]")
  ∧ (String.length (truncateReport reportText) ≤ 5000 + 26)%nat.
Proof.
  unfold truncateReport. generalize 5000%nat. intros n.
  destruct (Nat.ltb_spec n (String.length reportText)) as [Hlt|Hle].
  - split_and!; [lia | |].
    + intros _. exists (substring 0 n reportText),
        (substring n (String.length reportText - n) reportText).
      split_and!; [apply substring_split | | done].
      rewrite substring_0_length. lia.
    + rewrite string_length_app, substring_0_length.
      change (String.length "... [truncated for length]") with 26%nat. lia.
  - split_and!; [done | lia | lia].
Qed.

Lemma truncateReport_spec_witness :
  truncateReport "Excavation at Keezhadi, season 4." = "Excavation at Keezhadi, season 4.".
Proof.
  apply (truncateReport_spec "Excavation at Keezhadi, season 4.").
  vm_compute. repeat constructor.
Defined.

(** ** Dashboard filters *)

Lemma includes_empty (text : string) : JSString.includes text "" = true.
Proof. by destruct text. Qed.

Lemma lower_char_idem (c : ascii) :
  JSString.lower_char (JSString.lower_char c) = JSString.lower_char c.
Proof.
  rewrite <- (ascii_nat_embedding c).
  assert (nat_of_ascii c < 256)%nat as Hc by apply nat_ascii_bounded.
  generalize dependent (nat_of_ascii c). intros n Hn.
  do 256 (destruct n as [|n]; [vm_compute; reflexivity|]). lia.
Qed.

Lemma toLowerCase_idem (s : string) :
  JSString.toLowerCase (JSString.toLowerCase s) = JSString.toLowerCase s.
Proof.
  induction s as [|c s IH]; simpl; [done|]. by rewrite lower_char_idem, IH.
Qed.

Lemma chronologyValue_eqb (c k : Chronology) :
  String.eqb (chronologyValue k) (chronologyValue c) = true ↔ k = c.
Proof.
  rewrite String.eqb_eq. split; [|by intros ->].
  destruct k, c; simpl; intros [=]; done.
Qed.

(** X20. With the three filters empty the dashboard lists every site.
    The listed sites always come from the working set, in its order.
    The search does not depend on the letter case of the search term.
    Filtering by the display value of a category alone lists exactly the
    sites whose chronology holds that category. *)
Theorem filteredSites_spec (sites : list Site) :
  filteredSites sites "" "" "" = sites
  ∧ (∀ q d c, sublist (filteredSites sites q d c) sites)
  ∧ (∀ q d c, filteredSites sites (JSString.toLowerCase q) d c
              = filteredSites sites q d c)
  ∧ (∀ c s, s ∈ filteredSites sites "" "" (chronologyValue c)
            ↔ s ∈ sites ∧ c ∈ chronology s).
Proof.
  split_and!.
  - unfold filteredSites.
    assert (∀ s, matchesSearch "" s && matchesDistrict "" s
                 && matchesChronology "" s = true) as Hall.
    { intros s. unfold matchesSearch. simpl JSString.toLowerCase.
      by rewrite includes_empty. }
    induction sites as [|s sites IH]; cbn [List.filter]; [done|].
    rewrite Hall. f_equal. apply IH.
  - intros q d c. unfold filteredSites.
    induction sites as [|s sites IH]; simpl; [constructor|].
    destruct (_ && _); by constructor.
  - intros q d c. unfold filteredSites. apply List.filter_ext. intros s.
    unfold matchesSearch. by rewrite toLowerCase_idem.
  - intros c s. unfold filteredSites.
    rewrite list_elem_of_In, List.filter_In, <- list_elem_of_In.
    apply and_iff_compat_l.
    unfold matchesSearch, matchesDistrict, matchesChronology.
    simpl. rewrite includes_empty. simpl.
    assert (String.eqb (chronologyValue c) "" = false) as ->
      by (by destruct c).
    simpl. rewrite existsb_exists. split.
    + intros (k & Hk & Heq). apply chronologyValue_eqb in Heq as <-.
      by apply list_elem_of_In.
    + intros Hc. exists c. split; [by apply list_elem_of_In|].
      by apply chronologyValue_eqb.
Qed.

Lemma ltb_false_le (a b : string) : String.ltb b a = false ↔ String.le a b.
Proof.
  unfold String.le, String.ltb, String.leb.
  rewrite (String.compare_antisym b a).
  destruct (String.compare a b); simpl; split; done.
Qed.

Lemma NoDup_List_filter {A} (f : A → bool) (l : list A) :
  NoDup l → NoDup (List.filter f l).
Proof.
  induction 1 as [|a l Ha Hl IH]; simpl; [constructor|].
  destruct (f a); [|done]. constructor; [|done].
  intros Hin. apply Ha.
  by apply list_elem_of_In, List.filter_In in Hin as [?%list_elem_of_In _].
Qed.

(** X21. The district options of the dashboard are the non-empty
    districts of the working set, each once, in ascending order of
    their code units. *)
Theorem uniqueDistricts_spec (sites : list Site) :
  StronglySorted String.le (uniqueDistricts sites)
  ∧ NoDup (uniqueDistricts sites)
  ∧ (∀ d, d ∈ uniqueDistricts sites
          ↔ d ≠ "" ∧ ∃ s, s ∈ sites ∧ district (location s) = d).
Proof.
  unfold uniqueDistricts.
  set (options := List.filter _ (JSSet.new_Set _)).
  pose proof (Array_sort_Permutation (fun a b => String.ltb b a) options) as Hperm.
  split_and!.
  - apply (StronglySorted_impl_elem (fun a b => String.ltb b a = false) _
             (fun _ => True)).
    + intros a b _ _. apply ltb_false_le.
    + apply Forall_forall. done.
    + apply (Array_sort_sorted _ (fun _ => True)).
      * intros a b _ _ Hab. unfold String.ltb in *.
        rewrite (String.compare_antisym a b).
        by destruct (String.compare b a).
      * intros a b c _ _ _ H1 H2. apply ltb_false_le.
        apply ltb_false_le in H1, H2. by etrans.
      * apply Forall_forall. done.
  - rewrite Hperm. unfold options.
    apply NoDup_List_filter, NoDup_new_Set.
  - intros d. rewrite Hperm. unfold options.
    rewrite list_elem_of_In, List.filter_In, <- list_elem_of_In.
    rewrite elem_of_new_Set, list_elem_of_fmap, negb_true_iff, String.eqb_neq.
    split.
    + intros [(s & -> & Hs) Hne]. eauto.
    + intros [Hne (s & Hs & <-)]. eauto.
Qed.
